(** * ngx-rxjs-render-scheduler: the scheduler/action pair

    A shallow embedding of [afterNextRenderScheduler.ts].  The two classes of
    the file, [AfterNextRenderScheduler] and [AfterNextRenderAction], mutate
    objects and register closures with two collaborators that live outside
    the repository: the browser timer ([setTimeout]/[clearTimeout]) and
    Angular's [afterNextRender].  The embedding threads an explicit [World]
    through every method: the heap of action objects, the pending timers, the
    queue of render callbacks and the trace of [work] invocations. *)

From Stdlib Require Import QArith.
From stdpp Require Import base option list strings.

Set Default Proof Using "Type".

(** ** JavaScript numbers, as far as [delay > 0] looks at them *)

Inductive number :=
| Finite (q : Q)
| PosInfinity
| NegInfinity
| NaN.

Definition zero : number := Finite 0.

(** [d > 0] of JavaScript: false for [NaN], for zero and for negatives. *)
Definition gt0 (d : number) : bool :=
  match d with
  | Finite q => negb (Qle_bool q 0)
  | PosInfinity => true
  | NegInfinity => false
  | NaN => false
  end.

(** [d <= 0] of JavaScript, as a proposition. *)
Definition le0 (d : number) : Prop :=
  match d with
  | Finite q => (q <= 0)%Q
  | NegInfinity => True
  | PosInfinity => False
  | NaN => False
  end.

(** ** Angular's injector and the ambient injection context *)

(** An [Injector] is an opaque object; only its identity matters here.  The
    code never calls it, so the reference may also stand for an object that
    was merely taken for an injector. *)
Inductive Injector := InjectorRef (id : nat).

(** Outcome of a call that may throw. *)
Inductive completion (X A : Type) :=
| Normal (a : A)
| Throw (x : X).
Arguments Normal {X A} a.
Arguments Throw {X A} x.

(** The error [inject] raises outside an injection context (NG0203). *)
Inductive ConfigurationError := MissingInjectionContext.

(** [inject(Injector)]: the ambient injector when an injection context is
    active, an exception otherwise. *)
Definition inject (ambient : option Injector)
  : completion ConfigurationError Injector :=
  match ambient with
  | Some i => Normal i
  | None => Throw MissingInjectionContext
  end.

(** ** The scheduler's configuration *)

(** A clock [() => number] reads the wall-clock time of the host. *)
Definition clock := Q -> number.

(** [Date.now]. *)
Definition Date_now : clock := fun t => Finite t.

(** [AfterNextRenderSchedulerOptions]: both fields are optional. *)
Record AfterNextRenderSchedulerOptions := {
  opt_injector : option Injector;
  opt_now : option clock
}.

(** An object given to the constructor, as far as the constructor looks at
    it: whether it has a key [get] (['get' in options]), and its properties
    [injector] and [now].  [self] is the object itself, the reference that
    is stored when the object is taken for an injector. *)
Record object := {
  self : Injector;
  has_get : bool;
  fields : AfterNextRenderSchedulerOptions
}.

(** The argument of the constructor,
    [options?: AfterNextRenderSchedulerOptions | Injector]: absent, or an
    object.  Which of the two an object is, the code decides by the key
    [get] alone. *)
Inductive ctor_arg :=
| ArgUndefined
| ArgObject (o : object).

(** An Angular injector handed over as it is: it has a method [get]. *)
Definition injector_object (i : Injector) : object :=
  {| self := i; has_get := true;
     fields := {| opt_injector := None; opt_now := None |} |}.

(** An options literal [{ injector, now }], without a key [get]. *)
Definition options_object (ref : Injector)
  (options : AfterNextRenderSchedulerOptions) : object :=
  {| self := ref; has_get := false; fields := options |}.

Record AfterNextRenderScheduler := {
  now : clock;
  scheduler_injector : option Injector
}.

(** [a ?? b] where [b] may throw: [b] is evaluated only when [a] is absent. *)
Definition nullish_or {X A} (a : option A) (b : completion X A)
  : completion X A :=
  match a with
  | Some v => Normal v
  | None => b
  end.

(** The constructor, in the injection context [ambient]. *)
Definition Scheduler_constructor (ambient : option Injector) (options : ctor_arg)
  : completion ConfigurationError AfterNextRenderScheduler :=
  match options with
  | ArgObject o =>
      if has_get o then
        (* options !== undefined && 'get' in options *)
        Normal {| now := Date_now; scheduler_injector := Some (self o) |}
      else
        let clk := default Date_now (opt_now (fields o)) in
        match nullish_or (opt_injector (fields o)) (inject ambient) with
        | Normal i => Normal {| now := clk; scheduler_injector := Some i |}
        | Throw x => Throw x
        end
  | ArgUndefined =>
      match nullish_or None (inject ambient) with
      | Normal i => Normal {| now := Date_now; scheduler_injector := Some i |}
      | Throw x => Throw x
      end
  end.

(** The object the constructor takes for an injector: one with a key
    [get]. *)
Definition taken_as_injector (options : ctor_arg) : option Injector :=
  match options with
  | ArgObject o => if has_get o then Some (self o) else None
  | ArgUndefined => None
  end.

(** [options?.injector] and [options?.now]. *)
Definition options_injector (options : ctor_arg) : option Injector :=
  match options with
  | ArgObject o => opt_injector (fields o)
  | ArgUndefined => None
  end.

Definition options_now (options : ctor_arg) : option clock :=
  match options with
  | ArgObject o => opt_now (fields o)
  | ArgUndefined => None
  end.

(** The configuration the constructor is to resolve, after the
    specification, with "an explicit context" read as the code decides it:
    an object with a key [get]. *)
Definition spec_now (options : ctor_arg) : clock :=
  match taken_as_injector options with
  | Some _ => Date_now
  | None =>
      match options_now options with
      | Some supplied => supplied
      | None => Date_now
      end
  end.

(** The injector the caller supplied: the argument itself when it is taken
    for an injector, its property [injector] otherwise. *)
Definition supplied_injector (options : ctor_arg) : option Injector :=
  match taken_as_injector options with
  | Some i => Some i
  | None => options_injector options
  end.

Definition spec_injector (ambient : option Injector) (options : ctor_arg)
  : option Injector :=
  match supplied_injector options with
  | Some i => Some i
  | None => ambient
  end.

(** ** observeOnNextRender *)

(** rxjs [observeOn(scheduler)] builds an operator around the scheduler;
    the operator is kept as a value. *)
Inductive operator :=
| observeOn (scheduler : AfterNextRenderScheduler).

(** [observeOnNextRender(options)]: the scheduler is constructed when the
    operator is created, so a failing constructor fails the call. *)
Definition observeOnNextRender (ambient : option Injector) (options : ctor_arg)
  : completion ConfigurationError operator :=
  match Scheduler_constructor ambient options with
  | Normal scheduler => Normal (observeOn scheduler)
  | Throw x => Throw x
  end.

Section Model.

(** [T] is the type of the state handed to [work]; [E] the type of the values
    [work] may throw. *)
Context {T E : Type}.

(** ** Closures and the caller's work function *)

(** The two closures the action registers, defunctionalised: each captures
    the action ([this]) and the state. *)
Inductive Callback :=
| CbSchedule (a : nat) (s : T)     (* () => this.schedule(state) *)
| CbExecute (a : nat) (s : T).     (* () => this.execute(state)  *)

Definition cb_action (cb : Callback) : nat :=
  match cb with
  | CbSchedule a _ => a
  | CbExecute a _ => a
  end.

(** What a work function may do with its [this: SchedulerAction<T>]. *)
Inductive this_call :=
| CallSchedule (s : T) (delay : option number)
| CallUnsubscribe.

(** The caller's [work]: on a state it performs calls on [this] and then
    either returns ([None]) or throws ([Some e]). *)
Record Work := {
  calls : T -> list this_call;
  raises : T -> option E
}.

(** ** Objects and the world *)

(** [AfterNextRenderAction]: [closed] is the flag of the inherited rxjs
    [Subscription]; the action registers no teardown with it. *)
Record Action := {
  closed : bool;
  timeoutId : option nat;
  injector : option Injector;
  work : Work
}.

(** A pending timer of the host: handle, delay and callback. *)
Record Timer := {
  timer_id : nat;
  timer_delay : number;
  timer_cb : Callback
}.

(** A callback registered with [afterNextRender], and its options. *)
Record Render := {
  render_cb : Callback;
  render_injector : option Injector
}.

Record World := {
  actions : list Action;        (* heap of action objects, by reference *)
  timers : list Timer;          (* armed timers, in arming order *)
  next_timer : nat;             (* next handle [setTimeout] returns *)
  renders : list Render;        (* afterNextRender queue, oldest first *)
  log : list (nat * T)          (* invocations of work: action and state *)
}.

Definition empty_world : World :=
  {| actions := []; timers := []; next_timer := 0; renders := []; log := [] |}.

(** ** Field updates *)

Definition with_timeoutId (id : option nat) (this : Action) : Action :=
  {| closed := closed this; timeoutId := id;
     injector := injector this; work := work this |}.

Definition with_closed (b : bool) (this : Action) : Action :=
  {| closed := b; timeoutId := timeoutId this;
     injector := injector this; work := work this |}.

Definition with_actions (l : list Action) (w : World) : World :=
  {| actions := l; timers := timers w; next_timer := next_timer w;
     renders := renders w; log := log w |}.

Definition with_renders (l : list Render) (w : World) : World :=
  {| actions := actions w; timers := timers w; next_timer := next_timer w;
     renders := l; log := log w |}.

Definition with_log (l : list (nat * T)) (w : World) : World :=
  {| actions := actions w; timers := timers w; next_timer := next_timer w;
     renders := renders w; log := l |}.

(** Write the object [this] back at reference [a]. *)
Definition set_action (a : nat) (this : Action) (w : World) : World :=
  with_actions (<[a:=this]> (actions w)) w.

(** ** The collaborators *)

(** [setTimeout(cb, delay)]: arms one timer and returns its handle. *)
Definition setTimeout (cb : Callback) (delay : number) (w : World)
  : nat * World :=
  (next_timer w,
   {| actions := actions w;
      timers := timers w ++
        [{| timer_id := next_timer w; timer_delay := delay; timer_cb := cb |}];
      next_timer := S (next_timer w);
      renders := renders w; log := log w |}).

(** [clearTimeout(id)]: the timer, if still armed, is dropped. *)
Definition clearTimeout (id : nat) (w : World) : World :=
  {| actions := actions w;
     timers := filter (λ t, timer_id t ≠ id) (timers w);
     next_timer := next_timer w;
     renders := renders w; log := log w |}.

(** [afterNextRender(cb, { injector })]: one more registration, last in the
    queue. *)
Definition afterNextRender (cb : Callback) (inj : option Injector) (w : World)
  : World :=
  with_renders
    (renders w ++ [{| render_cb := cb; render_injector := inj |}]) w.

(** [Subscription.unsubscribe] of rxjs, for a subscription without
    teardowns: the object becomes closed. *)
Definition Subscription_unsubscribe (a : nat) (w : World) : World :=
  match actions w !! a with
  | Some this => set_action a (with_closed true this) w
  | None => w
  end.

(** ** AfterNextRenderAction *)

(** The methods take the reference [a] of their [this].  A reference always
    points to an allocated object in the program; on a reference that is
    not allocated the methods leave the world as it is. *)

(** [schedule(state, delay = 0)]; the result is [this]. *)
Definition Action_schedule (a : nat) (s : T) (delay : option number)
  (w : World) : nat * World :=
  match actions w !! a with
  | None => (a, w)
  | Some this =>
      if closed this then (a, w)
      else if gt0 (default zero delay) then
        let '(id, w1) := setTimeout (CbSchedule a s) (default zero delay) w in
        (a, set_action a (with_timeoutId (Some id) this) w1)
      else
        (a, afterNextRender (CbExecute a s) (injector this) w)
  end.

(** [unsubscribe()]. *)
Definition Action_unsubscribe (a : nat) (w : World) : World :=
  match actions w !! a with
  | None => w
  | Some this =>
      if closed this then w
      else
        let w1 :=
          match timeoutId this with
          | Some id =>
              set_action a (with_timeoutId None this) (clearTimeout id w)
          | None => w
          end in
        Subscription_unsubscribe a w1
  end.

(** One call the work function makes on its [this]. *)
Definition this_call_run (a : nat) (w : World) (c : this_call) : World :=
  match c with
  | CallSchedule s delay => snd (Action_schedule a s delay w)
  | CallUnsubscribe => Action_unsubscribe a w
  end.

(** [this.work(state)]: the invocation is recorded, the body runs its calls
    on [this], and the call returns or throws. *)
Definition invoke_work (a : nat) (wk : Work) (s : T) (w : World)
  : option E * World :=
  (raises wk s,
   foldl (this_call_run a) (with_log (log w ++ [(a, s)]) w) (calls wk s)).

(** [execute(state)]: [None] when the call returns, [Some err] when it
    throws [err]. *)
Definition Action_execute (a : nat) (s : T) (w : World) : option E * World :=
  match actions w !! a with
  | None => (None, w)
  | Some this =>
      if closed this then (None, w)
      else
        match invoke_work a (work this) s w with
        | (Some err, w1) => (Some err, Action_unsubscribe a w1)
        | (None, w1) => (None, w1)
        end
  end.

(** ** AfterNextRenderScheduler.schedule *)

(** [new AfterNextRenderAction(injector, work)]: a fresh object, open and
    without timer. *)
Definition Action_new (inj : option Injector) (wk : Work) (w : World)
  : nat * World :=
  (length (actions w),
   with_actions
     (actions w ++
        [{| closed := false; timeoutId := None;
            injector := inj; work := wk |}]) w).

(** [schedule(work, delay = 0, state)]; the result is the new action. *)
Definition Scheduler_schedule (sch : AfterNextRenderScheduler) (wk : Work)
  (delay : option number) (s : T) (w : World) : nat * World :=
  let '(a, w1) := Action_new (scheduler_injector sch) wk w in
  Action_schedule a s (Some (default zero delay)) w1.

(** ** The host driving the callbacks *)

Definition run_callback (cb : Callback) (w : World) : option E * World :=
  match cb with
  | CbSchedule a s => (None, snd (Action_schedule a s None w))
  | CbExecute a s => Action_execute a s w
  end.

(** An armed timer elapses: it is disarmed and its callback runs. *)
Definition fire_timer (id : nat) (w : World) : option E * World :=
  match list_find (λ t, timer_id t = id) (timers w) with
  | Some (_, t) => run_callback (timer_cb t) (clearTimeout id w)
  | None => (None, w)
  end.

(** The provider fires its oldest registration, once. *)
Definition fire_render (w : World) : option E * World :=
  match renders w with
  | [] => (None, w)
  | r :: rest => run_callback (render_cb r) (with_renders rest w)
  end.

(** [n] registrations are fired, oldest first; what they throw goes to the
    provider's error handler. *)
Fixpoint fire_renders (n : nat) (w : World) : list E * World :=
  match n with
  | O => ([], w)
  | S n' =>
      let '(e, w1) := fire_render w in
      let '(es, w2) := fire_renders n' w1 in
      (option_list e ++ es, w2)
  end.

(** One pass over the render queue: every callback registered so far is
    fired, in registration order; registrations made meanwhile are left for
    a later pass. *)
Definition flush_render (w : World) : list E * World :=
  fire_renders (length (renders w)) w.

(** What can happen to a world.  The first five are what the host and the
    holder of a handle do; the last three call a method or a closure of an
    action directly, any number of times. *)
Inductive event :=
| EvTimer (id : nat)
| EvRender
| EvFlush
| EvUnsubscribe (a : nat)
| EvNewTask (sch : AfterNextRenderScheduler) (wk : Work)
    (delay : option number) (s : T)
| EvExecute (a : nat) (s : T)
| EvSchedule (a : nat) (s : T) (delay : option number)
| EvCallback (cb : Callback).

Definition step (w : World) (ev : event) : World :=
  match ev with
  | EvTimer id => snd (fire_timer id w)
  | EvRender => snd (fire_render w)
  | EvFlush => snd (flush_render w)
  | EvUnsubscribe a => Action_unsubscribe a w
  | EvNewTask sch wk delay s => snd (Scheduler_schedule sch wk delay s w)
  | EvExecute a s => snd (Action_execute a s w)
  | EvSchedule a s delay => snd (Action_schedule a s delay w)
  | EvCallback cb => snd (run_callback cb w)
  end.

Definition run (w : World) (evs : list event) : World := foldl step w evs.

(** Events in which every registered callback is fired by its owner only:
    a timer when it elapses, a render callback when its turn comes. *)
Definition one_shot (ev : event) : bool :=
  match ev with
  | EvTimer _ | EvRender | EvFlush | EvUnsubscribe _ | EvNewTask _ _ _ _ => true
  | EvExecute _ _ | EvSchedule _ _ _ | EvCallback _ => false
  end.

(** ** Observations *)

Definition is_closed (a : nat) (w : World) : bool :=
  match actions w !! a with
  | Some this => closed this
  | None => false
  end.

(** How often the work of action [a] was invoked. *)
Definition invocations (a : nat) (l : list (nat * T)) : nat :=
  length (filter (λ e, e.1 = a) l).

(** Armed timers and render registrations whose closure belongs to [a]. *)
Definition timers_of (a : nat) (w : World) : list Timer :=
  filter (λ t, cb_action (timer_cb t) = a) (timers w).

Definition renders_of (a : nat) (w : World) : list Render :=
  filter (λ r, cb_action (render_cb r) = a) (renders w).

(** Registered closures of [a] that were not fired yet. *)
Definition pending (a : nat) (w : World) : nat :=
  length (timers_of a w) + length (renders_of a w).

(** Pending closures of [a] plus the invocations of its work so far. *)
Definition budget (a : nat) (w : World) : nat :=
  pending a w + invocations a (log w).

(** Nothing in the world refers to reference [a]. *)
Definition fresh (a : nat) (w : World) : Prop :=
  pending a w = 0 ∧ invocations a (log w) = 0.

(** Closures and invocations refer to allocated actions only. *)
Definition wf (w : World) : Prop :=
  ∀ a, length (actions w) ≤ a → fresh a w.

(** The work function of the action at reference [a], if allocated. *)
Definition work_of (a : nat) (w : World) : option Work :=
  work <$> actions w !! a.

(** A transition that is the doing of the actions in [P] alone: the other
    objects are left as they are, no action changes its work function, and
    what is added to the render queue and to the trace belongs to [P]. *)
Definition only_touches (P : nat → Prop) (w w' : World) : Prop :=
  (∀ a, ¬ P a → actions w' !! a = actions w !! a) ∧
  (∀ a wk, work_of a w = Some wk → work_of a w' = Some wk) ∧
  (∃ l, log w' = log w ++ l ∧ Forall (λ e, P e.1) l) ∧
  (∃ r, renders w' = renders w ++ r ∧
        Forall (λ x, P (cb_action (render_cb x))) r) ∧
  (∀ a, ¬ P a → length (timers_of a w') ≤ length (timers_of a w)).

(** A transition that action [a] does not notice. *)
Definition inert (a : nat) (w w' : World) : Prop :=
  actions w' !! a = actions w !! a ∧
  invocations a (log w') = invocations a (log w) ∧
  length (timers_of a w') ≤ length (timers_of a w) ∧
  length (renders_of a w') ≤ length (renders_of a w).

(** A closed action has no timer handle left, once it was closed by
    [unsubscribe]. *)
Definition tidy (a : nat) (w : World) : Prop :=
  ∀ this, actions w !! a = Some this → closed this = true →
          timeoutId this = None.

(** The work function never calls [this.schedule]. *)
Definition no_reschedule (wk : Work) : Prop :=
  ∀ s c, c ∈ calls wk s → c = CallUnsubscribe.

(** ** Further observations *)

(** Timer handles are not reused: every armed timer carries a handle below
    the next one [setTimeout] returns. *)
Definition timers_wf (w : World) : Prop :=
  Forall (λ t, timer_id t < next_timer w) (timers w).

(** The handle an action keeps was returned by [setTimeout], and an armed
    timer with that handle is the action's own. *)
Definition handles_wf (w : World) : Prop :=
  timers_wf w ∧
  ∀ b this id, actions w !! b = Some this → timeoutId this = Some id →
    id < next_timer w ∧
    ∀ t, t ∈ timers w → timer_id t = id → cb_action (timer_cb t) = b.

(** What belongs to action [b] is the same in both worlds. *)
Definition same_for (b : nat) (w w' : World) : Prop :=
  actions w' !! b = actions w !! b ∧
  timers_of b w' = timers_of b w ∧
  renders_of b w' = renders_of b w ∧
  filter (λ e, e.1 = b) (log w') = filter (λ e, e.1 = b) (log w).

(** The action an event calls directly, if it is such a call. *)
Definition subject (ev : event) : option nat :=
  match ev with
  | EvUnsubscribe a => Some a
  | EvExecute a _ => Some a
  | EvSchedule a _ _ => Some a
  | EvCallback cb => Some (cb_action cb)
  | EvTimer _ | EvRender | EvFlush | EvNewTask _ _ _ _ => None
  end.

(** Every armed timer of [a] in the later world was armed in the earlier
    one. *)
Definition no_new_timers (a : nat) (w w' : World) : Prop :=
  ∀ t, t ∈ timers_of a w' → t ∈ timers_of a w.

(** Every armed timer of the later world was armed in the earlier one or
    belongs to [b]. *)
Definition timers_from (b : nat) (w w' : World) : Prop :=
  ∀ t, t ∈ timers w' → t ∈ timers w ∨ cb_action (timer_cb t) = b.

(** The event is not the elapsing of timer [id]. *)
Definition not_timer (id : nat) (ev : event) : bool :=
  match ev with
  | EvTimer id' => negb (Nat.eqb id' id)
  | _ => true
  end.

(** A delayed task that waits for timer [id]: nothing but timers of that
    handle can fire for it, and its work was not invoked. *)
Definition waiting (a id : nat) (w : World) : Prop :=
  a < length (actions w) ∧
  renders_of a w = [] ∧
  invocations a (log w) = 0 ∧
  ∀ t, t ∈ timers_of a w → timer_id t = id.





End Model.

(** ** Sample tasks, after the test suite *)

Definition test_injector : Injector := InjectorRef 0.

Definition test_scheduler : AfterNextRenderScheduler :=
  {| now := Date_now; scheduler_injector := Some test_injector |}.

(** A spy: it returns and leaves [this] alone. *)
Definition spy : @Work string string :=
  {| calls := λ _, []; raises := λ _, None |}.

(** A work function that throws. *)
Definition failing : @Work string string :=
  {| calls := λ _, []; raises := λ _, Some "Test Error"%string |}.

(** A work function that schedules itself again, the rxjs idiom for
    repeated work: [this.schedule(state)]. *)
Definition repeating : @Work string string :=
  {| calls := λ s, [CallSchedule s None]; raises := λ _, None |}.

(** The action [Scheduler.schedule] allocates for a spy. *)
Definition spy_action : @Action string string :=
  {| closed := false; timeoutId := None;
     injector := Some test_injector; work := spy |}.

Definition failing_action : @Action string string :=
  {| closed := false; timeoutId := None;
     injector := Some test_injector; work := failing |}.

(** A work function that arms a timer for itself and then throws. *)
Definition failing_after_timer : @Work string string :=
  {| calls := λ s, [CallSchedule s (Some (Finite (inject_Z 50)))];
     raises := λ _, Some "Test Error"%string |}.

(** A work function that arms two timers for itself and then throws. *)
Definition failing_after_two_timers : @Work string string :=
  {| calls := λ s, [CallSchedule s (Some (Finite (inject_Z 50)));
                    CallSchedule s (Some (Finite (inject_Z 60)))];
     raises := λ _, Some "Test Error"%string |}.

Definition action_with (wk : @Work string string) : @Action string string :=
  {| closed := false; timeoutId := None;
     injector := Some test_injector; work := wk |}.

(** A clock of the caller. *)
Definition sample_clock : clock := λ _, Finite (inject_Z 42).

(** The options literal [{ get: 1, now: sample_clock }]: no property
    [injector], but a key [get]. *)
Definition options_with_get : object :=
  {| self := InjectorRef 7; has_get := true;
     fields := {| opt_injector := None; opt_now := Some sample_clock |} |}.

(** A world holding one open action and nothing else. *)
Definition world_with (this : @Action string string) : @World string string :=
  {| actions := [this]; timers := []; next_timer := 0;
     renders := []; log := [] |}.

(** * Properties *)

(** ** Numbers *)

Lemma gt0_Finite (q : Q) : gt0 (Finite q) = true ↔ (0 < q)%Q.
Proof.
  simpl. rewrite negb_true_iff. split.
  - intros H. apply Qnot_le_lt. intros Hle.
    apply Qle_bool_iff in Hle. congruence.
  - intros H. destruct (Qle_bool q 0) eqn:Hb; [|done].
    apply Qle_bool_iff in Hb. exfalso. eapply Qlt_not_le; eauto.
Qed.

Lemma le0_not_gt0 (d : number) : le0 d → gt0 d = false.
Proof.
  destruct d as [q| | |]; simpl; try done.
  intros H. apply Qle_bool_iff in H. by rewrite H.
Qed.

(** ** The constructor *)

(** C7, as the code has it.  The code takes every object with a key
    [get] for the injector itself.  Without an argument, or with an object
    that has neither a key [get] nor a property [injector], the constructor
    throws outside an injection context, so that no scheduler exists to
    call [schedule] on; with an injector supplied in either way it succeeds
    whatever the ambient context is, and its result does not depend on
    that context. *)
Theorem constructor_configuration_error :
  (∀ options, supplied_injector options = None →
     Scheduler_constructor None options = Throw MissingInjectionContext) ∧
  (∀ options i, supplied_injector options = Some i →
     ∀ ambient,
       (∃ sch, Scheduler_constructor ambient options = Normal sch ∧
               scheduler_injector sch = Some i) ∧
       Scheduler_constructor ambient options =
         Scheduler_constructor None options).
Proof.
  split.
  - intros [|[ref [|] [inj clk]]]; cbn; try done. by intros ->.
  - intros [|[ref [|] [inj clk]]] i; cbn; try done.
    + intros [= ->] ambient. eauto.
    + intros -> ambient. cbn. eauto.
Qed.

(** C8, as the code has it.  An object with a key [get] counts as the
    explicit context: the clock is then [Date.now] and the object itself is
    stored, whatever its other properties.  Otherwise the clock is the
    supplied one or [Date.now], the injector is the supplied one or else
    the ambient one, and without either the constructor throws. *)
Theorem constructor_resolution (ambient : option Injector) (options : ctor_arg) :
  (∀ ref properties,
     Scheduler_constructor ambient
       (ArgObject {| self := ref; has_get := true; fields := properties |}) =
       Normal {| now := Date_now; scheduler_injector := Some ref |}) ∧
  Scheduler_constructor ambient options =
    match spec_injector ambient options with
    | Some i =>
        Normal {| now := spec_now options; scheduler_injector := Some i |}
    | None => Throw MissingInjectionContext
    end.
Proof.
  split; [done|].
  destruct options as [|[ref [|] [[inj|] [clk|]]]], ambient as [amb|];
    reflexivity.
Qed.

Section Properties.

Context {T E : Type}.
Implicit Types (w : @World T E) (this : @Action T E) (wk : @Work T E).
Implicit Types (cb : @Callback T) (s : T) (a b : nat).

(** ** The collaborators leave the rest of the world alone *)

Lemma lookup_set_action a b this w :
  actions (set_action a this w) !! b =
    if decide (a = b ∧ a < length (actions w)) then Some this
    else actions w !! b.
Proof.
  unfold set_action; simpl. case_decide as H.
  - destruct H as [-> H]. by apply list_lookup_insert_eq.
  - destruct (decide (a = b)) as [->|Hne].
    + rewrite list_insert_ge; [done|]. lia.
    + by apply list_lookup_insert_ne.
Qed.

Lemma schedule_returns_this a s delay w :
  fst (Action_schedule a s delay w) = a.
Proof.
  unfold Action_schedule.
  destruct (actions w !! a) as [this|]; [|done].
  destruct (closed this); [done|].
  by destruct (gt0 (default zero delay)).
Qed.

Lemma schedule_closed a s delay w :
  is_closed a w = true → Action_schedule a s delay w = (a, w).
Proof.
  unfold is_closed, Action_schedule.
  destruct (actions w !! a) as [this|]; [|done]. by intros ->.
Qed.

Lemma execute_closed a s w :
  is_closed a w = true → Action_execute a s w = (None, w).
Proof.
  unfold is_closed, Action_execute.
  destruct (actions w !! a) as [this|]; [|done]. by intros ->.
Qed.

Lemma unsubscribe_closed a w :
  is_closed a w = true → Action_unsubscribe a w = w.
Proof.
  unfold is_closed, Action_unsubscribe.
  destruct (actions w !! a) as [this|]; [|done]. by intros ->.
Qed.

Lemma unsubscribe_closes a this w :
  actions w !! a = Some this →
  is_closed a (Action_unsubscribe a w) = true.
Proof.
  intros Ha. pose proof (lookup_lt_Some _ _ _ Ha) as Hlt.
  unfold Action_unsubscribe. rewrite Ha.
  destruct (closed this) eqn:Hc.
  { unfold is_closed. by rewrite Ha. }
  unfold Subscription_unsubscribe, is_closed.
  destruct (timeoutId this) as [id|].
  - rewrite !lookup_set_action; simpl.
    rewrite decide_True by done.
    rewrite lookup_set_action; simpl. rewrite length_insert.
    by rewrite decide_True.
  - rewrite Ha, lookup_set_action. by rewrite decide_True.
Qed.

(** ** Transitions that are the doing of some actions only *)

Lemma only_touches_refl P w : only_touches P w w.
Proof.
  repeat split; try done.
  - exists []. by rewrite app_nil_r.
  - exists []. by rewrite app_nil_r.
Qed.

Lemma only_touches_trans P w1 w2 w3 :
  only_touches P w1 w2 → only_touches P w2 w3 → only_touches P w1 w3.
Proof.
  intros (Ho1 & Hw1 & (l1 & Hl1 & Fl1) & (r1 & Hr1 & Fr1) & Ht1)
         (Ho2 & Hw2 & (l2 & Hl2 & Fl2) & (r2 & Hr2 & Fr2) & Ht2).
  repeat split.
  - intros a Ha. rewrite Ho2, Ho1; done.
  - intros a wk Ha. by apply Hw2, Hw1.
  - exists (l1 ++ l2). rewrite Hl2, Hl1, app_assoc. split; [done|].
    by apply Forall_app.
  - exists (r1 ++ r2). rewrite Hr2, Hr1, app_assoc. split; [done|].
    by apply Forall_app.
  - intros a Ha. etrans; [by apply Ht2|by apply Ht1].
Qed.

Lemma only_touches_mono (P Q : nat → Prop) w w' :
  (∀ a, P a → Q a) → only_touches P w w' → only_touches Q w w'.
Proof.
  intros HPQ (Ho & Hw & (l & Hl & Fl) & (r & Hr & Fr) & Ht).
  repeat split.
  - intros a Ha. apply Ho. naive_solver.
  - done.
  - exists l. split; [done|]. eapply Forall_impl; [done|]. naive_solver.
  - exists r. split; [done|]. eapply Forall_impl; [done|]. naive_solver.
  - intros a Ha. apply Ht. naive_solver.
Qed.

Lemma length_filter_filter {A} (P Q : A → Prop)
    `{!∀ x, Decision (P x)} `{!∀ x, Decision (Q x)} (l : list A) :
  length (filter P (filter Q l)) ≤ length (filter P l).
Proof.
  induction l as [|x l IH]; [done|].
  rewrite !filter_cons.
  destruct (decide (Q x)), (decide (P x)); simpl;
    rewrite ?filter_cons; repeat case_decide; simpl; try done; lia.
Qed.

Lemma set_action_touches b this this' w :
  actions w !! b = Some this → work this' = work this →
  only_touches (eq b) w (set_action b this' w).
Proof.
  intros Hb Hwk. repeat split; simpl.
  - intros a Ha. apply list_lookup_insert_ne. congruence.
  - intros a wk. unfold work_of; simpl.
    destruct (decide (b = a)) as [<-|Hne].
    + rewrite list_lookup_insert_eq by eauto using lookup_lt_Some.
      rewrite Hb; simpl. congruence.
    + by rewrite list_lookup_insert_ne.
  - exists []. by rewrite app_nil_r.
  - exists []. by rewrite app_nil_r.
  - done.
Qed.

Lemma clearTimeout_touches P id w : only_touches P w (clearTimeout id w).
Proof.
  repeat split; simpl; try done.
  - exists []. by rewrite app_nil_r.
  - exists []. by rewrite app_nil_r.
  - intros a _. apply length_filter_filter.
Qed.

Lemma setTimeout_touches b cb delay w :
  cb_action cb = b → only_touches (eq b) w (setTimeout cb delay w).2.
Proof.
  intros Hb. repeat split; simpl; try done.
  - exists []. by rewrite app_nil_r.
  - exists []. by rewrite app_nil_r.
  - intros a Ha. unfold timers_of; simpl.
    rewrite filter_app, filter_cons_False, filter_nil, app_nil_r; [done|].
    simpl. congruence.
Qed.

Lemma afterNextRender_touches b cb inj w :
  cb_action cb = b → only_touches (eq b) w (afterNextRender cb inj w).
Proof.
  intros Hb. repeat split; simpl; try done.
  - exists []. by rewrite app_nil_r.
  - eexists. split; [done|]. by apply Forall_singleton.
Qed.

Lemma Subscription_unsubscribe_touches b w :
  only_touches (eq b) w (Subscription_unsubscribe b w).
Proof.
  unfold Subscription_unsubscribe.
  destruct (actions w !! b) eqn:Hb; [|apply only_touches_refl].
  by eapply set_action_touches.
Qed.

Lemma schedule_touches b s delay w :
  only_touches (eq b) w (Action_schedule b s delay w).2.
Proof.
  unfold Action_schedule.
  destruct (actions w !! b) as [this|] eqn:Hb; [|apply only_touches_refl].
  destruct (closed this); [apply only_touches_refl|].
  destruct (gt0 (default zero delay)); simpl.
  - eapply only_touches_trans;
      [by apply (setTimeout_touches b (CbSchedule b s))|].
    by eapply set_action_touches.
  - by apply afterNextRender_touches.
Qed.

Lemma unsubscribe_touches b w :
  only_touches (eq b) w (Action_unsubscribe b w).
Proof.
  unfold Action_unsubscribe.
  destruct (actions w !! b) as [this|] eqn:Hb; [|apply only_touches_refl].
  destruct (closed this); [apply only_touches_refl|].
  eapply only_touches_trans; [|apply Subscription_unsubscribe_touches].
  destruct (timeoutId this) as [id|]; [|apply only_touches_refl].
  eapply only_touches_trans; [apply clearTimeout_touches|].
  by eapply set_action_touches.
Qed.

Lemma this_call_touches b c w :
  only_touches (eq b) w (this_call_run b w c).
Proof.
  destruct c; simpl; [apply schedule_touches|apply unsubscribe_touches].
Qed.

Lemma this_calls_touch b cs w :
  only_touches (eq b) w (foldl (this_call_run b) w cs).
Proof.
  revert w. induction cs as [|c cs IH]; intros w; simpl.
  - apply only_touches_refl.
  - eapply only_touches_trans; [apply this_call_touches|apply IH].
Qed.

Lemma log_touches b s w :
  only_touches (eq b) w (with_log (log w ++ [(b, s)]) w).
Proof.
  repeat split; simpl; try done.
  - eexists. split; [done|]. by apply Forall_singleton.
  - exists []. by rewrite app_nil_r.
Qed.

Lemma invoke_work_touches b wk s w :
  only_touches (eq b) w (invoke_work b wk s w).2.
Proof.
  unfold invoke_work; simpl.
  eapply only_touches_trans; [apply log_touches|apply this_calls_touch].
Qed.

Lemma execute_touches b s w :
  only_touches (eq b) w (Action_execute b s w).2.
Proof.
  unfold Action_execute.
  destruct (actions w !! b) as [this|]; [|apply only_touches_refl].
  destruct (closed this); [apply only_touches_refl|].
  pose proof (invoke_work_touches b (work this) s w) as H.
  destruct (invoke_work b (work this) s w) as [[err|] w1]; simpl in *; [|done].
  eapply only_touches_trans; [done|apply unsubscribe_touches].
Qed.

Lemma run_callback_touches cb w :
  only_touches (eq (cb_action cb)) w (run_callback cb w).2.
Proof.
  destruct cb as [a s|a s]; simpl;
    [apply schedule_touches|apply execute_touches].
Qed.

(** An allocated action stays allocated. *)
Lemma only_touches_allocated P a this w w' :
  only_touches P w w' → actions w !! a = Some this →
  ∃ this', actions w' !! a = Some this' ∧ work this' = work this.
Proof.
  intros (_ & Hw & _) Ha.
  specialize (Hw a (work this)). unfold work_of in Hw.
  rewrite Ha in Hw. specialize (Hw eq_refl).
  destruct (actions w' !! a) as [this'|]; [|done].
  exists this'. split; [done|]. by injection Hw.
Qed.

(** ** The methods, case by case *)

Lemma unsubscribe_open a this w :
  actions w !! a = Some this → closed this = false →
  Action_unsubscribe a w =
    {| actions :=
         <[a := {| closed := true; timeoutId := None;
                   injector := injector this; work := work this |}]>
           (actions w);
       timers :=
         match timeoutId this with
         | Some id => filter (λ t, timer_id t ≠ id) (timers w)
         | None => timers w
         end;
       next_timer := next_timer w;
       renders := renders w;
       log := log w |}.
Proof.
  intros Ha Hc. pose proof (lookup_lt_Some _ _ _ Ha) as Hlt.
  unfold Action_unsubscribe. rewrite Ha, Hc.
  unfold Subscription_unsubscribe.
  destruct (timeoutId this) as [id|] eqn:Hid.
  - rewrite lookup_set_action; simpl. rewrite decide_True by done.
    unfold set_action, with_actions; simpl.
    by rewrite list_insert_insert_eq.
  - rewrite Ha. unfold set_action, with_actions, with_closed; simpl.
    by rewrite Hid.
Qed.

Lemma unsubscribe_absent a w :
  actions w !! a = None → Action_unsubscribe a w = w.
Proof. unfold Action_unsubscribe. by intros ->. Qed.

Lemma schedule_open_timer a this s delay w :
  actions w !! a = Some this → closed this = false →
  gt0 (default zero delay) = true →
  Action_schedule a s delay w =
    (a, {| actions := <[a := with_timeoutId (Some (next_timer w)) this]>
                        (actions w);
           timers := timers w ++
             [{| timer_id := next_timer w;
                 timer_delay := default zero delay;
                 timer_cb := CbSchedule a s |}];
           next_timer := S (next_timer w);
           renders := renders w;
           log := log w |}).
Proof. intros Ha Hc Hd. unfold Action_schedule. by rewrite Ha, Hc, Hd. Qed.

Lemma schedule_open_render a this s delay w :
  actions w !! a = Some this → closed this = false →
  gt0 (default zero delay) = false →
  Action_schedule a s delay w =
    (a, with_renders
          (renders w ++
             [{| render_cb := CbExecute a s;
                 render_injector := injector this |}]) w).
Proof. intros Ha Hc Hd. unfold Action_schedule. by rewrite Ha, Hc, Hd. Qed.

Lemma execute_open a this s w :
  actions w !! a = Some this → closed this = false →
  Action_execute a s w =
    match raises (work this) s with
    | Some err =>
        (Some err, Action_unsubscribe a (invoke_work a (work this) s w).2)
    | None => (None, (invoke_work a (work this) s w).2)
    end.
Proof.
  intros Ha Hc. unfold Action_execute. rewrite Ha, Hc.
  unfold invoke_work; simpl. by destruct (raises (work this) s).
Qed.

(** The calls of a work function write nothing into the trace. *)
Lemma schedule_log a s delay w : log (Action_schedule a s delay w).2 = log w.
Proof.
  unfold Action_schedule.
  destruct (actions w !! a) as [this|]; [|done].
  destruct (closed this); [done|].
  by destruct (gt0 (default zero delay)).
Qed.

Lemma unsubscribe_cases a w :
  Action_unsubscribe a w = w ∨
  ∃ this, actions w !! a = Some this ∧ closed this = false.
Proof.
  destruct (actions w !! a) as [this|] eqn:Ha;
    [|left; by apply unsubscribe_absent].
  destruct (closed this) eqn:Hc; [left|right; eauto].
  apply unsubscribe_closed. unfold is_closed. by rewrite Ha.
Qed.

Lemma unsubscribe_log a w : log (Action_unsubscribe a w) = log w.
Proof.
  destruct (unsubscribe_cases a w) as [->|(this & Ha & Hc)]; [done|].
  by rewrite (unsubscribe_open a this).
Qed.

Lemma unsubscribe_renders a w : renders (Action_unsubscribe a w) = renders w.
Proof.
  destruct (unsubscribe_cases a w) as [->|(this & Ha & Hc)]; [done|].
  by rewrite (unsubscribe_open a this).
Qed.

Lemma this_calls_log a cs w : log (foldl (this_call_run a) w cs) = log w.
Proof.
  revert w. induction cs as [|c cs IH]; intros w; simpl; [done|].
  rewrite IH. destruct c; simpl; [apply schedule_log|apply unsubscribe_log].
Qed.

Lemma invoke_work_log a wk s w :
  log (invoke_work a wk s w).2 = log w ++ [(a, s)].
Proof. unfold invoke_work; simpl. by rewrite this_calls_log. Qed.

Lemma schedule_tidy a s delay w :
  tidy a w → tidy a (Action_schedule a s delay w).2.
Proof.
  intros Ht. unfold Action_schedule.
  destruct (actions w !! a) as [this|] eqn:Ha; [|done].
  destruct (closed this) eqn:Hc; [done|].
  destruct (gt0 (default zero delay)); simpl.
  - intros this'. rewrite lookup_set_action. case_decide.
    + intros [= <-]. simpl. congruence.
    + intros. by apply Ht.
  - done.
Qed.

Lemma unsubscribe_tidy a w : tidy a w → tidy a (Action_unsubscribe a w).
Proof.
  intros Ht.
  destruct (actions w !! a) as [this|] eqn:Ha;
    [|by rewrite unsubscribe_absent].
  destruct (closed this) eqn:Hc.
  { rewrite unsubscribe_closed; [done|]. unfold is_closed. by rewrite Ha. }
  rewrite (unsubscribe_open a this) by done.
  intros this'; simpl. rewrite list_lookup_insert_eq
    by eauto using lookup_lt_Some.
  by intros [= <-].
Qed.

Lemma this_calls_tidy a cs w : tidy a w → tidy a (foldl (this_call_run a) w cs).
Proof.
  revert w. induction cs as [|c cs IH]; intros w Ht; simpl; [done|].
  apply IH. destruct c; simpl; [by apply schedule_tidy|by apply unsubscribe_tidy].
Qed.

(** ** Scheduling *)

Lemma Scheduler_schedule_unfold sch wk delay s w :
  Scheduler_schedule sch wk delay s w =
    Action_schedule (length (actions w)) s (Some (default zero delay))
      (with_actions
         (actions w ++
            [{| closed := false; timeoutId := None;
                injector := scheduler_injector sch; work := wk |}]) w).
Proof. done. Qed.

Lemma Scheduler_schedule_handle sch wk delay s w :
  (Scheduler_schedule sch wk delay s w).1 = length (actions w).
Proof. rewrite Scheduler_schedule_unfold. apply schedule_returns_this. Qed.

Lemma Scheduler_schedule_cases sch wk delay s w :
  let created :=
    {| closed := false; timeoutId := None;
       injector := scheduler_injector sch; work := wk |} in
  let a := length (actions w) in
  (gt0 (default zero delay) = true ∧
   (Scheduler_schedule sch wk delay s w).2 =
     {| actions := actions w ++ [with_timeoutId (Some (next_timer w)) created];
        timers := timers w ++
          [{| timer_id := next_timer w; timer_delay := default zero delay;
              timer_cb := CbSchedule a s |}];
        next_timer := S (next_timer w);
        renders := renders w;
        log := log w |}) ∨
  (gt0 (default zero delay) = false ∧
   (Scheduler_schedule sch wk delay s w).2 =
     {| actions := actions w ++ [created];
        timers := timers w;
        next_timer := next_timer w;
        renders := renders w ++
          [{| render_cb := CbExecute a s;
              render_injector := scheduler_injector sch |}];
        log := log w |}).
Proof.
  intros created a. rewrite Scheduler_schedule_unfold. fold created a.
  set (w1 := with_actions (actions w ++ [created]) w).
  assert (Ha : actions w1 !! a = Some created).
  { subst w1 a; simpl. by rewrite list_lookup_middle. }
  destruct (gt0 (default zero delay)) eqn:Hd; [left|right]; split; try done.
  - rewrite (schedule_open_timer a created) by done. simpl.
    f_equal. subst a. rewrite insert_app_r_alt by lia.
    by rewrite Nat.sub_diag.
  - by rewrite (schedule_open_render a created).
Qed.

(** C3. [Scheduler.schedule] allocates one action, open and bound to the
    scheduler's injector and to [work], delegates to its [schedule] and
    returns it; the trace of work invocations is unchanged, for every delay,
    and exactly one closure is registered. *)
Theorem scheduler_schedule_defers sch wk delay s w :
  let created :=
    {| closed := false; timeoutId := None;
       injector := scheduler_injector sch; work := wk |} in
  let a := length (actions w) in
  let r := Scheduler_schedule sch wk delay s w in
  r = Action_schedule a s (Some (default zero delay))
        (with_actions (actions w ++ [created]) w) ∧
  r.1 = a ∧
  log r.2 = log w ∧
  (∃ id, actions r.2 = actions w ++ [with_timeoutId id created]) ∧
  is_closed a r.2 = false ∧
  length (timers r.2) + length (renders r.2) =
    S (length (timers w) + length (renders w)).
Proof.
  intros created a r. subst r.
  split; [apply Scheduler_schedule_unfold|].
  split; [apply Scheduler_schedule_handle|].
  destruct (Scheduler_schedule_cases sch wk delay s w) as [[_ ->]|[_ ->]];
    fold created a; simpl.
  - split; [done|]. split; [by eexists|]. split.
    + unfold is_closed; simpl. subst a. by rewrite list_lookup_middle.
    + rewrite length_app; simpl. lia.
  - split; [done|]. split; [by exists None|]. split.
    + unfold is_closed; simpl. subst a. by rewrite list_lookup_middle.
    + rewrite length_app; simpl. lia.
Qed.

(** C4. On an open action, [schedule(state, delay)] with [delay > 0] arms
    exactly one timer for [delay] whose closure calls [schedule(state)]
    again, with the default delay 0; with [delay <= 0] it registers exactly
    one closure with [afterNextRender], under the action's injector, and
    that closure calls [execute(state)]. *)
Theorem action_schedule_paths a this s d w :
  actions w !! a = Some this → closed this = false →
  let w' := (Action_schedule a s (Some d) w).2 in
  (gt0 d = true →
     timers w' = timers w ++
       [{| timer_id := next_timer w; timer_delay := d;
           timer_cb := CbSchedule a s |}] ∧
     renders w' = renders w ∧
     log w' = log w ∧
     actions w' = <[a := with_timeoutId (Some (next_timer w)) this]> (actions w) ∧
     ∀ w2, run_callback (CbSchedule a s) w2 =
             (None, (Action_schedule a s (Some zero) w2).2)) ∧
  (le0 d →
     renders w' = renders w ++
       [{| render_cb := CbExecute a s; render_injector := injector this |}] ∧
     timers w' = timers w ∧
     log w' = log w ∧
     actions w' = actions w ∧
     ∀ w2, run_callback (CbExecute a s) w2 = Action_execute a s w2).
Proof.
  intros Ha Hc w'. subst w'. split.
  - intros Hd. rewrite (schedule_open_timer a this) by done. simpl.
    repeat split; done.
  - intros Hd%le0_not_gt0.
    rewrite (schedule_open_render a this) by done. simpl.
    repeat split; done.
Qed.

(** ** Execution *)

(** C5, as the code has it.  When the work of an open action throws,
    [execute] closes the action, drops the timer handle it keeps in
    [timeoutId] and disarms the timer of that handle, and throws the same
    error; the work was invoked once.  The handle is that of the timer the
    action armed last: when every armed timer of the action is that one,
    none remains armed. *)
Theorem execute_error_cancels_and_rethrows a this s err w :
  actions w !! a = Some this → closed this = false →
  raises (work this) s = Some err →
  let w1 := (invoke_work a (work this) s w).2 in
  let r := Action_execute a s w in
  r.1 = Some err ∧
  r.2 = Action_unsubscribe a w1 ∧
  is_closed a r.2 = true ∧
  (∃ this', actions r.2 !! a = Some this' ∧ timeoutId this' = None) ∧
  (∀ this1 id, actions w1 !! a = Some this1 → timeoutId this1 = Some id →
     ∀ t, t ∈ timers r.2 → timer_id t ≠ id) ∧
  (∀ this1, actions w1 !! a = Some this1 →
     (∀ t, t ∈ timers_of a w1 → timeoutId this1 = Some (timer_id t)) →
     timers_of a r.2 = []) ∧
  log r.2 = log w ++ [(a, s)].
Proof.
  intros Ha Hc Herr w1 r. subst r.
  rewrite (execute_open a this) by done. rewrite Herr.
  cbn [fst snd]. fold w1.
  split; [done|]. split; [done|].
  assert (Htidy : tidy a w1).
  { apply this_calls_tidy. intros this0; simpl. congruence. }
  destruct (only_touches_allocated _ a this w w1
              (invoke_work_touches a (work this) s w) Ha)
    as (this1 & Ha1 & _).
  split; [by eapply unsubscribe_closes|].
  split; [|split; [|split]].
  - pose proof (unsubscribe_tidy a w1 Htidy) as Ht.
    pose proof (unsubscribe_closes a this1 w1 Ha1) as Hcl.
    unfold is_closed in Hcl.
    destruct (actions (Action_unsubscribe a w1) !! a) as [this'|] eqn:Ha';
      [|done].
    exists this'. split; [done|]. by apply Ht.
  - intros this0 id Ha0 Hid t Ht.
    rewrite Ha1 in Ha0. injection Ha0 as <-.
    destruct (closed this1) eqn:Hc1.
    { rewrite (Htidy this1) in Hid; done. }
    rewrite (unsubscribe_open a this1) in Ht by done. simpl in Ht.
    rewrite Hid in Ht. by apply list_elem_of_filter in Ht as [? _].
  - intros this0 Ha0 Htracked.
    rewrite Ha1 in Ha0. injection Ha0 as <-.
    destruct (timers_of a (Action_unsubscribe a w1)) as [|t l] eqn:Hts;
      [done|exfalso].
    assert (Ht : t ∈ timers_of a (Action_unsubscribe a w1))
      by (rewrite Hts; left).
    apply list_elem_of_filter in Ht as [Hta Ht].
    assert (Hin : t ∈ timers_of a w1).
    { apply list_elem_of_filter. split; [done|].
      destruct (unsubscribe_cases a w1) as [Heq|(this0 & Ha0 & Hc0)].
      - by rewrite Heq in Ht.
      - rewrite (unsubscribe_open a this0) in Ht by done. simpl in Ht.
        destruct (timeoutId this0); [|done].
        by apply list_elem_of_filter in Ht as [_ ?]. }
    specialize (Htracked t Hin).
    destruct (closed this1) eqn:Hc1.
    { rewrite (Htidy this1) in Htracked; done. }
    rewrite (unsubscribe_open a this1) in Ht by done. simpl in Ht.
    rewrite Htracked in Ht. by apply list_elem_of_filter in Ht as [? _].
  - rewrite unsubscribe_log. apply invoke_work_log.
Qed.




(** ** Transitions an action does not notice *)

Lemma inert_refl a w : inert a w w.
Proof. by repeat split. Qed.

Lemma inert_trans a w1 w2 w3 : inert a w1 w2 → inert a w2 w3 → inert a w1 w3.
Proof.
  intros (Ha1 & Hi1 & Ht1 & Hr1) (Ha2 & Hi2 & Ht2 & Hr2).
  repeat split; [congruence|congruence|lia|lia].
Qed.

Lemma inert_closed a w w' :
  inert a w w' → is_closed a w = true → is_closed a w' = true.
Proof. intros (Ha & _). unfold is_closed. by rewrite Ha. Qed.

Lemma filter_none_of {A} (f : A → nat) (P : nat → Prop) a (l : list A) :
  Forall (λ x, P (f x)) l → ¬ P a → filter (λ x, f x = a) l = [].
Proof.
  intros Hl Ha. induction Hl as [|x l Hx _ IH]; [done|].
  rewrite filter_cons_False; [done|]. simpl. congruence.
Qed.

Lemma touches_inert P a w w' : only_touches P w w' → ¬ P a → inert a w w'.
Proof.
  intros (Ho & _ & (l & Hl & Fl) & (r & Hr & Fr) & Ht) Ha.
  repeat split.
  - by apply Ho.
  - unfold invocations. rewrite Hl, filter_app.
    rewrite (filter_none_of fst P a l) by done. by rewrite app_nil_r.
  - by apply Ht.
  - unfold renders_of. rewrite Hr, filter_app.
    rewrite (filter_none_of (λ x, cb_action (render_cb x)) P a r) by done.
    by rewrite app_nil_r.
Qed.

(** A method of [b] is not noticed by a closed action [a]: for [b = a] it
    is a no-op, for another action it leaves [a] alone. *)
Lemma method_inert a b w w' :
  (is_closed b w = true → w' = w) → only_touches (eq b) w w' →
  is_closed a w = true → inert a w w'.
Proof.
  intros Hid Ht Hc. destruct (decide (b = a)) as [->|Hne].
  - rewrite Hid by done. apply inert_refl.
  - by eapply touches_inert.
Qed.

Lemma run_callback_closed cb w :
  is_closed (cb_action cb) w = true → run_callback cb w = (None, w).
Proof.
  destruct cb as [a s|a s]; simpl; intros Hc.
  - by rewrite schedule_closed.
  - by apply execute_closed.
Qed.

Lemma run_callback_inert a cb w :
  is_closed a w = true → inert a w (run_callback cb w).2.
Proof.
  apply (method_inert a (cb_action cb)); [|apply run_callback_touches].
  intros Hc. by rewrite run_callback_closed.
Qed.

Lemma clearTimeout_inert a id w : inert a w (clearTimeout id w).
Proof.
  apply (touches_inert (λ _, False)); [apply clearTimeout_touches|tauto].
Qed.

Lemma pop_render_inert a r rest w :
  renders w = r :: rest → inert a w (with_renders rest w).
Proof.
  intros Hr. repeat split; try done.
  unfold renders_of; simpl. rewrite Hr, filter_cons.
  case_decide; simpl; lia.
Qed.

Lemma fire_timer_inert a id w :
  is_closed a w = true → inert a w (fire_timer id w).2.
Proof.
  intros Hc. unfold fire_timer.
  destruct (list_find _ _) as [[i t]|]; [|apply inert_refl].
  eapply inert_trans; [apply (clearTimeout_inert a id)|].
  by apply run_callback_inert.
Qed.

Lemma fire_render_inert a w :
  is_closed a w = true → inert a w (fire_render w).2.
Proof.
  intros Hc. unfold fire_render.
  destruct (renders w) as [|r rest] eqn:Hr; [apply inert_refl|].
  eapply inert_trans; [by apply (pop_render_inert a r rest)|].
  by apply run_callback_inert.
Qed.

Lemma fire_renders_step n w :
  (fire_renders (S n) w).2 = (fire_renders n (fire_render w).2).2.
Proof.
  simpl. destruct (fire_render w) as [e w1]; simpl.
  by destruct (fire_renders n w1).
Qed.

Lemma fire_renders_inert a n w :
  is_closed a w = true → inert a w (fire_renders n w).2.
Proof.
  revert w. induction n as [|n IH]; intros w Hc; [apply inert_refl|].
  rewrite fire_renders_step.
  pose proof (fire_render_inert a w Hc) as H1.
  eapply inert_trans; [done|]. apply IH. by eapply inert_closed.
Qed.

Lemma Action_new_inert a inj wk w :
  a < length (actions w) → inert a w (Action_new inj wk w).2.
Proof.
  intros Ha. repeat split; try done. simpl. by rewrite lookup_app_l.
Qed.

Lemma is_closed_allocated a w : is_closed a w = true → a < length (actions w).
Proof.
  unfold is_closed. destruct (actions w !! a) eqn:Ha; [|done].
  intros _. by eapply lookup_lt_Some.
Qed.

Lemma Scheduler_schedule_inert a sch wk delay s w :
  a < length (actions w) → inert a w (Scheduler_schedule sch wk delay s w).2.
Proof.
  intros Ha. unfold Scheduler_schedule.
  destruct (Action_new (scheduler_injector sch) wk w) as [b w1] eqn:Hnew.
  assert (b = length (actions w) ∧ w1 = (Action_new (scheduler_injector sch) wk w).2)
    as [Hb ->] by (by rewrite Hnew; injection Hnew as <- _).
  eapply inert_trans; [by apply Action_new_inert|].
  eapply touches_inert; [apply schedule_touches|]. lia.
Qed.

Lemma step_inert a w ev : is_closed a w = true → inert a w (step w ev).
Proof.
  intros Hc. destruct ev as [id| | |b|sch wk delay s|b s|b s delay|cb]; simpl.
  - by apply fire_timer_inert.
  - by apply fire_render_inert.
  - by apply fire_renders_inert.
  - apply (method_inert a b); [apply unsubscribe_closed|
      apply unsubscribe_touches|done].
  - by apply Scheduler_schedule_inert, is_closed_allocated.
  - apply (method_inert a b); [|apply execute_touches|done].
    intros H. by rewrite execute_closed.
  - apply (method_inert a b); [|apply schedule_touches|done].
    intros H. by rewrite schedule_closed.
  - by apply run_callback_inert.
Qed.

Lemma run_inert a evs w : is_closed a w = true → inert a w (run w evs).
Proof.
  revert w. induction evs as [|ev evs IH]; intros w Hc; [apply inert_refl|].
  simpl. pose proof (step_inert a w ev Hc) as H1.
  eapply inert_trans; [done|]. apply IH. by eapply inert_closed.
Qed.

(** ** Cancellation *)

(** C2. Once [unsubscribe] was called on an action, whatever happens next
    (timers, renders, other tasks, calls of [execute], [schedule] or of a
    registered closure, any number of times), the action stays closed, its
    work is never invoked, nothing is registered for it, and [execute] and
    [schedule] return at once, [schedule] with the action itself. *)
Theorem cancellation_is_absorbing a this w evs :
  actions w !! a = Some this →
  let w' := run (Action_unsubscribe a w) evs in
  is_closed a w' = true ∧
  (∀ s, Action_execute a s w' = (None, w')) ∧
  (∀ s delay, Action_schedule a s delay w' = (a, w')) ∧
  invocations a (log w') = invocations a (log w) ∧
  length (timers_of a w') ≤ length (timers_of a w) ∧
  length (renders_of a w') ≤ length (renders_of a w).
Proof.
  intros Ha w'.
  pose proof (unsubscribe_closes a this w Ha) as Hc.
  pose proof (run_inert a evs _ Hc) as Hrun. fold w' in Hrun.
  pose proof (inert_closed _ _ _ Hrun Hc) as Hc'.
  destruct Hrun as (_ & Hi & Ht & Hr).
  split; [done|]. split; [intros s; by apply execute_closed|].
  split; [intros s delay; by apply schedule_closed|].
  rewrite Hi, unsubscribe_log. split; [done|]. split.
  - etrans; [done|].
    destruct (unsubscribe_cases a w) as [->|(this0 & Ha0 & Hc0)]; [done|].
    rewrite (unsubscribe_open a this0) by done. unfold timers_of; simpl.
    destruct (timeoutId this0); [apply length_filter_filter|done].
  - etrans; [done|]. unfold renders_of. by rewrite unsubscribe_renders.
Qed.

Lemma unsubscribe_twice a w :
  Action_unsubscribe a (Action_unsubscribe a w) = Action_unsubscribe a w.
Proof.
  destruct (actions w !! a) as [this|] eqn:Ha.
  - apply unsubscribe_closed. by eapply unsubscribe_closes.
  - by rewrite !(unsubscribe_absent a w).
Qed.

(** C6. [unsubscribe] is idempotent: any number of further calls leaves
    the world of the first call; the first call leaves the action closed,
    which is what the later ones find. *)
Theorem unsubscribe_idempotent a w n :
  Nat.iter (S n) (Action_unsubscribe a) w = Action_unsubscribe a w ∧
  is_closed a (Action_unsubscribe a w) = bool_decide (a < length (actions w)).
Proof.
  split.
  - induction n as [|n IH]; [done|].
    change (Action_unsubscribe a (Nat.iter (S n) (Action_unsubscribe a) w)
            = Action_unsubscribe a w).
    rewrite IH. apply unsubscribe_twice.
  - destruct (actions w !! a) as [this|] eqn:Ha.
    + rewrite (unsubscribe_closes a this) by done.
      symmetry. apply bool_decide_eq_true. by eapply lookup_lt_Some.
    + rewrite unsubscribe_absent by done. unfold is_closed. rewrite Ha.
      symmetry. apply bool_decide_eq_false. apply lookup_ge_None in Ha. lia.
Qed.

(** ** Counting registrations and invocations *)

Lemma inert_budget a w w' : inert a w w' → budget a w' ≤ budget a w.
Proof. intros (_ & Hi & Ht & Hr). unfold budget, pending. lia. Qed.

Lemma length_filter_filter_lt {A} (P Q : A → Prop)
    `{!∀ x, Decision (P x)} `{!∀ x, Decision (Q x)} (l : list A) x :
  x ∈ l → P x → ¬ Q x →
  length (filter P (filter Q l)) < length (filter P l).
Proof.
  intros Hx HP HQ. induction Hx as [x l|x y l Hx IH].
  - rewrite filter_cons_False by done. rewrite filter_cons_True by done.
    simpl. pose proof (length_filter_filter P Q l). lia.
  - specialize (IH HP HQ). rewrite !(filter_cons _ y).
    destruct (decide (Q y)), (decide (P y)); simpl;
      rewrite ?filter_cons; repeat case_decide; simpl; try done; lia.
Qed.

Lemma schedule_budget a s delay w :
  budget a (Action_schedule a s delay w).2 ≤ S (budget a w).
Proof.
  unfold Action_schedule.
  destruct (actions w !! a) as [this|]; [|simpl; lia].
  destruct (closed this); [simpl; lia|].
  destruct (gt0 (default zero delay)); unfold budget, pending; simpl.
  - unfold timers_of, renders_of; simpl.
    rewrite filter_app, length_app. rewrite filter_cons_True by done.
    simpl. lia.
  - unfold timers_of, renders_of; simpl.
    rewrite filter_app, length_app. rewrite filter_cons_True by done.
    simpl. lia.
Qed.

Lemma unsubscribe_budget a b w :
  budget a (Action_unsubscribe b w) ≤ budget a w.
Proof.
  destruct (unsubscribe_cases b w) as [->|(this & Hb & Hc)]; [done|].
  rewrite (unsubscribe_open b this) by done.
  unfold budget, pending, timers_of, renders_of; simpl.
  destruct (timeoutId this); [|done].
  pose proof (length_filter_filter
    (λ t : Timer, cb_action (timer_cb t) = a)
    (λ t : Timer, timer_id t ≠ n) (timers w)). lia.
Qed.

Lemma unsubscribe_calls_budget a cs w :
  (∀ c, c ∈ cs → c = CallUnsubscribe) →
  budget a (foldl (this_call_run a) w cs) ≤ budget a w.
Proof.
  revert w. induction cs as [|c cs IH]; intros w Hcs; [done|].
  simpl. etrans; [apply IH; intros; apply Hcs; by right|].
  rewrite (Hcs c) by left. apply unsubscribe_budget.
Qed.

Lemma execute_budget a this s w :
  actions w !! a = Some this → no_reschedule (work this) →
  budget a (Action_execute a s w).2 ≤ S (budget a w).
Proof.
  intros Ha Hq. destruct (closed this) eqn:Hc.
  { rewrite execute_closed; [simpl; lia|]. unfold is_closed. by rewrite Ha. }
  assert (Hw : budget a (invoke_work a (work this) s w).2 ≤ S (budget a w)).
  { unfold invoke_work; cbn [snd].
    etrans; [apply unsubscribe_calls_budget, Hq|].
    unfold budget, pending, invocations, timers_of, renders_of; simpl.
    rewrite filter_app, length_app. rewrite filter_cons_True by done.
    simpl. lia. }
  rewrite (execute_open a this) by done.
  destruct (raises (work this) s); cbn [snd]; [|done].
  etrans; [apply unsubscribe_budget|done].
Qed.

Lemma run_callback_budget a wk cb w :
  work_of a w = Some wk → no_reschedule wk →
  budget a (run_callback cb w).2 ≤
    budget a w + (if decide (cb_action cb = a) then 1 else 0).
Proof.
  intros Hw Hq. case_decide as Hcb.
  - unfold work_of in Hw. destruct (actions w !! a) as [this|] eqn:Ha; [|done].
    injection Hw as <-.
    destruct cb as [b s|b s]; simpl in *; subst b.
    + pose proof (schedule_budget a s None w). lia.
    + pose proof (execute_budget a this s w Ha Hq). lia.
  - rewrite Nat.add_0_r. apply inert_budget.
    eapply touches_inert; [apply run_callback_touches|]. congruence.
Qed.

(** Every event leaves the work function of an allocated action as it is. *)
Lemma run_callback_keeps_work a wk cb w :
  work_of a w = Some wk → work_of a (run_callback cb w).2 = Some wk.
Proof. apply (run_callback_touches cb w). Qed.

Lemma fire_timer_keeps_work a wk id w :
  work_of a w = Some wk → work_of a (fire_timer id w).2 = Some wk.
Proof.
  intros Hw. unfold fire_timer.
  destruct (list_find _ _) as [[i t]|]; [|done].
  by apply run_callback_keeps_work.
Qed.

Lemma fire_render_keeps_work a wk w :
  work_of a w = Some wk → work_of a (fire_render w).2 = Some wk.
Proof.
  intros Hw. unfold fire_render.
  destruct (renders w) as [|r rest]; [done|].
  by apply run_callback_keeps_work.
Qed.

Lemma fire_renders_keeps_work a wk n w :
  work_of a w = Some wk → work_of a (fire_renders n w).2 = Some wk.
Proof.
  revert w. induction n as [|n IH]; intros w Hw; [done|].
  rewrite fire_renders_step. by apply IH, fire_render_keeps_work.
Qed.

Lemma Scheduler_schedule_keeps_work a wk sch wk' delay s w :
  work_of a w = Some wk →
  work_of a (Scheduler_schedule sch wk' delay s w).2 = Some wk.
Proof.
  intros Hw. unfold Scheduler_schedule, Action_new.
  apply (schedule_touches (length (actions w))).
  unfold work_of in *; simpl.
  destruct (actions w !! a) as [this|] eqn:Ha; [|done].
  by rewrite (lookup_app_l_Some _ _ _ _ Ha).
Qed.

Lemma step_keeps_work a wk w ev :
  work_of a w = Some wk → work_of a (step w ev) = Some wk.
Proof.
  intros Hw. destruct ev as [id| | |b|sch wk' delay s|b s|b s delay|cb]; simpl.
  - by apply fire_timer_keeps_work.
  - by apply fire_render_keeps_work.
  - by apply fire_renders_keeps_work.
  - by apply (unsubscribe_touches b w).
  - by apply Scheduler_schedule_keeps_work.
  - by apply (execute_touches b s w).
  - by apply (schedule_touches b s delay w).
  - by apply run_callback_keeps_work.
Qed.

(** Firing a closure takes it out of the registrations before it runs. *)
Lemma fire_timer_budget a wk id w :
  work_of a w = Some wk → no_reschedule wk →
  budget a (fire_timer id w).2 ≤ budget a w.
Proof.
  intros Hw Hq. unfold fire_timer.
  destruct (list_find _ _) as [[i t]|] eqn:Hfind; [|done].
  apply list_find_Some in Hfind as (Hi & Hid & _).
  pose proof (run_callback_budget a wk (timer_cb t) (clearTimeout id w) Hw Hq)
    as Hcb.
  etrans; [exact Hcb|]. case_decide as Ht.
  - unfold budget, pending, timers_of, renders_of; simpl.
    assert (Hlt : length (filter (λ t : Timer, cb_action (timer_cb t) = a)
                     (filter (λ t : Timer, timer_id t ≠ id) (timers w))) <
                  length (filter (λ t : Timer, cb_action (timer_cb t) = a)
                     (timers w))).
    { apply (length_filter_filter_lt _ _ _ t);
        [by eapply list_elem_of_lookup_2|done|tauto]. }
    lia.
  - rewrite Nat.add_0_r. apply inert_budget, clearTimeout_inert.
Qed.

Lemma fire_render_budget a wk w :
  work_of a w = Some wk → no_reschedule wk →
  budget a (fire_render w).2 ≤ budget a w.
Proof.
  intros Hw Hq. unfold fire_render.
  destruct (renders w) as [|r rest] eqn:Hr; [done|].
  pose proof (run_callback_budget a wk (render_cb r) (with_renders rest w) Hw Hq)
    as Hcb.
  etrans; [exact Hcb|].
  unfold budget, pending, timers_of, renders_of; simpl.
  rewrite Hr, filter_cons. case_decide; simpl; lia.
Qed.

Lemma fire_renders_budget a wk n w :
  work_of a w = Some wk → no_reschedule wk →
  budget a (fire_renders n w).2 ≤ budget a w.
Proof.
  intros Hw Hq. revert w Hw.
  induction n as [|n IH]; intros w Hw; [done|].
  rewrite fire_renders_step.
  etrans; [apply IH; by apply fire_render_keeps_work|].
  by eapply fire_render_budget.
Qed.

Lemma work_of_allocated a wk w :
  work_of a w = Some wk → a < length (actions w).
Proof.
  unfold work_of. destruct (actions w !! a) eqn:Ha; [|done].
  intros _. by eapply lookup_lt_Some.
Qed.

Lemma step_budget a wk w ev :
  one_shot ev = true → work_of a w = Some wk → no_reschedule wk →
  budget a (step w ev) ≤ budget a w.
Proof.
  intros Hev Hw Hq.
  destruct ev as [id| | |b|sch wk' delay s|b s|b s delay|cb];
    simpl in *; try done.
  - by eapply fire_timer_budget.
  - by eapply fire_render_budget.
  - by eapply fire_renders_budget.
  - apply unsubscribe_budget.
  - apply inert_budget, Scheduler_schedule_inert.
    by eapply work_of_allocated.
Qed.

Lemma run_budget a wk evs w :
  Forall (λ ev, one_shot ev = true) evs →
  work_of a w = Some wk → no_reschedule wk →
  budget a (run w evs) ≤ budget a w.
Proof.
  intros Hevs Hw Hq. revert w Hw.
  induction Hevs as [|ev evs Hev _ IH]; intros w Hw; [done|].
  simpl. etrans; [apply IH; by apply step_keeps_work|].
  by eapply step_budget.
Qed.

Lemma execute_log_open a this s w :
  actions w !! a = Some this → closed this = false →
  log (Action_execute a s w).2 = log w ++ [(a, s)].
Proof.
  intros Ha Hc. rewrite (execute_open a this) by done.
  destruct (raises (work this) s); cbn [snd].
  - rewrite unsubscribe_log. apply invoke_work_log.
  - apply invoke_work_log.
Qed.

(** C1, as the code has it.  The action keeps no record of having fired:
    every [execute] on an open action invokes the work once more.  What
    bounds the invocations is that every registration is fired once: for a
    task created by [Scheduler.schedule] whose work does not call
    [this.schedule], under events that fire each timer and each render
    registration at most once, the work is invoked at most once. *)
Theorem work_invoked_at_most_once_when_one_shot sch wk delay s w evs :
  fresh (length (actions w)) w →
  no_reschedule wk →
  Forall (λ ev, one_shot ev = true) evs →
  let a := (Scheduler_schedule sch wk delay s w).1 in
  let w' := run (Scheduler_schedule sch wk delay s w).2 evs in
  invocations a (log w') ≤ 1 ∧
  ∀ this s', actions w' !! a = Some this → closed this = false →
    invocations a (log (Action_execute a s' w').2) =
      S (invocations a (log w')).
Proof.
  intros [Hp Hi] Hq Hevs a w'.
  assert (Ha : a = length (actions w)) by apply Scheduler_schedule_handle.
  split.
  - assert (Hw : work_of a (Scheduler_schedule sch wk delay s w).2 = Some wk).
    { unfold work_of. rewrite Ha.
      destruct (Scheduler_schedule_cases sch wk delay s w)
        as [[_ ->]|[_ ->]]; simpl; by rewrite list_lookup_middle. }
    pose proof (run_budget a wk evs _ Hevs Hw Hq) as Hrun. fold w' in Hrun.
    assert (H0 : budget a (Scheduler_schedule sch wk delay s w).2 ≤ 1).
    { rewrite Ha, Scheduler_schedule_unfold.
      etrans; [apply schedule_budget|].
      unfold budget, pending, timers_of, renders_of in *. simpl. lia. }
    unfold budget in *. lia.
  - intros this s' Hthis Hc.
    rewrite (execute_log_open a this) by done.
    unfold invocations. rewrite filter_app, length_app.
    rewrite filter_cons_True by done. simpl. lia.
Qed.

(** ** One render, in registration order *)

Lemma fire_renders_add n m w :
  (fire_renders (n + m) w).2 = (fire_renders m (fire_renders n w).2).2.
Proof.
  revert w. induction n as [|n IH]; intros w; [done|].
  change (S n + m) with (S (n + m)). by rewrite !fire_renders_step, IH.
Qed.

Lemma with_renders_id w : with_renders (renders w) w = w.
Proof. by destruct w. Qed.

(** A transition seen from a world whose render queue lost a prefix. *)
Lemma only_touches_drop P q rest w w' :
  only_touches P w w' → renders w = q ++ rest →
  ∃ extra, renders w' = q ++ rest ++ extra ∧
    only_touches P (with_renders rest w) (with_renders (rest ++ extra) w').
Proof.
  intros (Ho & Hw & Hl & (r & Hr & Fr) & Ht) Hq.
  exists r. split; [by rewrite Hr, Hq, app_assoc|].
  repeat split; try done. by exists r.
Qed.

Lemma fire_renders_prefix (P : nat → Prop) old :
  ∀ rest w, renders w = old ++ rest →
    Forall (λ r, P (cb_action (render_cb r))) old →
    only_touches P (with_renders rest w) (fire_renders (length old) w).2.
Proof.
  induction old as [|r old IH]; intros rest w Hw Hold.
  - simpl in *. rewrite <- Hw, with_renders_id. apply only_touches_refl.
  - apply Forall_cons in Hold as [Hr Hold].
    change (length (r :: old)) with (S (length old)).
    rewrite fire_renders_step. unfold fire_render at 1. rewrite Hw. simpl.
    set (w0 := with_renders (old ++ rest) w).
    pose proof (run_callback_touches (render_cb r) w0) as H1.
    apply (only_touches_mono _ P) in H1; [|by intros ? <-].
    destruct (only_touches_drop P old rest _ _ H1 eq_refl)
      as (extra & Hx & H2).
    specialize (IH (rest ++ extra) _ Hx Hold).
    replace (with_renders rest w0) with (with_renders rest w) in H2 by done.
    eapply only_touches_trans; [exact H2|].
    replace (with_renders (rest ++ extra) (run_callback (render_cb r) w0).2)
      with (with_renders (rest ++ extra)
              (with_renders (rest ++ extra) (run_callback (render_cb r) w0).2))
      by done.
    revert IH. generalize (run_callback (render_cb r) w0).2. intros w1 IH.
    eapply only_touches_trans; [|exact IH]. apply only_touches_refl.
Qed.

Lemma wf_renders w :
  wf w →
  Forall (λ r, cb_action (render_cb r) < length (actions w)) (renders w).
Proof.
  intros Hwf. apply Forall_forall. intros r Hr.
  destruct (decide (cb_action (render_cb r) < length (actions w)))
    as [|Hge]; [done|].
  destruct (Hwf (cb_action (render_cb r))) as [Hp _]; [lia|].
  unfold pending, renders_of in Hp.
  assert (Hin : r ∈ filter (λ x : Render,
            cb_action (render_cb x) = cb_action (render_cb r)) (renders w))
    by (by apply list_elem_of_filter).
  destruct (filter _ (renders w)); [by apply elem_of_nil in Hin|].
  simpl in Hp. lia.
Qed.


(** ** Reachable worlds are well formed *)

Lemma wf_empty : wf (@empty_world T E).
Proof. intros a _. by split. Qed.

Lemma keeps_work_length w w' :
  (∀ a wk, work_of a w = Some wk → work_of a w' = Some wk) →
  length (actions w) ≤ length (actions w').
Proof.
  intros Hk. destruct (length (actions w)) as [|n] eqn:Hn; [lia|].
  destruct (lookup_lt_is_Some_2 (actions w) n) as [this Hthis]; [lia|].
  specialize (Hk n (work this)). unfold work_of in Hk at 1.
  rewrite Hthis in Hk. apply work_of_allocated in Hk; [lia|done].
Qed.

Lemma step_length w ev : length (actions w) ≤ length (actions (step w ev)).
Proof. apply keeps_work_length. intros a wk. apply step_keeps_work. Qed.

Lemma fire_render_length w :
  length (actions w) ≤ length (actions (fire_render w).2).
Proof. apply (step_length w EvRender). Qed.

(** A method of [b] is not noticed at a reference that is not allocated. *)
Lemma method_inert_unallocated a b w w' :
  (actions w !! b = None → w' = w) → only_touches (eq b) w w' →
  length (actions w) ≤ a → inert a w w'.
Proof.
  intros Hid Ht Ha. destruct (actions w !! b) as [this|] eqn:Hb.
  - eapply touches_inert; [done|]. apply lookup_lt_Some in Hb. lia.
  - rewrite Hid by done. apply inert_refl.
Qed.

Lemma schedule_absent a s delay w :
  actions w !! a = None → Action_schedule a s delay w = (a, w).
Proof. unfold Action_schedule. by intros ->. Qed.

Lemma execute_absent a s w :
  actions w !! a = None → Action_execute a s w = (None, w).
Proof. unfold Action_execute. by intros ->. Qed.

Lemma run_callback_absent cb w :
  actions w !! cb_action cb = None → run_callback cb w = (None, w).
Proof.
  destruct cb as [a s|a s]; simpl; intros Ha.
  - by rewrite schedule_absent.
  - by apply execute_absent.
Qed.

Lemma run_callback_inert_unallocated a cb w :
  length (actions w) ≤ a → inert a w (run_callback cb w).2.
Proof.
  apply (method_inert_unallocated a (cb_action cb));
    [|apply run_callback_touches].
  intros Hb. by rewrite run_callback_absent.
Qed.

Lemma fire_render_inert_unallocated a w :
  length (actions w) ≤ a → inert a w (fire_render w).2.
Proof.
  intros Ha. unfold fire_render.
  destruct (renders w) as [|r rest] eqn:Hr; [apply inert_refl|].
  eapply inert_trans; [by apply (pop_render_inert a r rest)|].
  by apply run_callback_inert_unallocated.
Qed.

Lemma fire_renders_inert_unallocated a n w :
  length (actions (fire_renders n w).2) ≤ a → inert a w (fire_renders n w).2.
Proof.
  revert w. induction n as [|n IH]; intros w Ha; [apply inert_refl|].
  rewrite fire_renders_step in *.
  pose proof (keeps_work_length (fire_render w).2
                (fire_renders n (fire_render w).2).2
                (λ b wk, fire_renders_keeps_work b wk n _)) as Hn.
  pose proof (fire_render_length w) as H1.
  eapply inert_trans; [apply fire_render_inert_unallocated; lia|].
  by apply IH.
Qed.

Lemma step_inert_unallocated a w ev :
  length (actions (step w ev)) ≤ a → inert a w (step w ev).
Proof.
  intros Ha. pose proof (step_length w ev) as Hlen.
  destruct ev as [id| | |b|sch wk delay s|b s|b s delay|cb]; simpl in *.
  - unfold fire_timer.
    destruct (list_find _ _) as [[i t]|]; [|apply inert_refl].
    eapply inert_trans; [apply (clearTimeout_inert a id)|].
    apply run_callback_inert_unallocated. simpl. lia.
  - apply fire_render_inert_unallocated. lia.
  - by apply fire_renders_inert_unallocated.
  - apply (method_inert_unallocated a b);
      [apply unsubscribe_absent|apply unsubscribe_touches|lia].
  - assert (Hlt : length (actions w) < a).
    { destruct (Scheduler_schedule_cases sch wk delay s w) as [[_ Hw]|[_ Hw]];
        rewrite Hw in Ha; simpl in Ha; rewrite length_app in Ha;
        simpl in Ha; lia. }
    rewrite Scheduler_schedule_unfold.
    eapply inert_trans; [|eapply touches_inert; [apply schedule_touches|lia]].
    repeat split; try done. simpl.
    rewrite !lookup_ge_None_2; [done|lia|rewrite length_app; simpl; lia].
  - apply (method_inert_unallocated a b); [|apply execute_touches|lia].
    intros Hb. by rewrite execute_absent.
  - apply (method_inert_unallocated a b); [|apply schedule_touches|lia].
    intros Hb. by rewrite schedule_absent.
  - apply run_callback_inert_unallocated. lia.
Qed.

Lemma wf_step w ev : wf w → wf (step w ev).
Proof.
  intros Hwf a Ha. pose proof (step_length w ev) as Hlen.
  destruct (Hwf a) as [Hp Hi]; [lia|].
  destruct (step_inert_unallocated a w ev Ha) as (_ & Hi' & Ht & Hr).
  unfold fresh, pending in *. split; lia.
Qed.

(** Every world reached from a well-formed one is well formed, and the
    empty world is. *)
Lemma wf_run w evs : wf w → wf (run w evs).
Proof.
  revert w. induction evs as [|ev evs IH]; intros w Hwf; [done|].
  simpl. by apply IH, wf_step.
Qed.

End Properties.

(** * The properties on the scenarios of the test suite *)

Example immediate_work_runs_after_render :
  let r := Scheduler_schedule test_scheduler spy (Some zero) "testState"%string
             empty_world in
  log r.2 = [] ∧ log (flush_render r.2).2 = [(0, "testState"%string)].
Proof. by vm_compute. Qed.

Example delayed_work_waits_for_timer_and_render :
  let r := Scheduler_schedule test_scheduler spy (Some (Finite (inject_Z 50)))
             "delayedState"%string empty_world in
  log (flush_render r.2).2 = [] ∧
  log (run r.2 [EvTimer 0]) = [] ∧
  log (run r.2 [EvTimer 0; EvFlush]) = [(0, "delayedState"%string)].
Proof. by vm_compute. Qed.

Example unsubscribed_work_never_runs :
  let r := Scheduler_schedule test_scheduler spy (Some zero)
             "canceledState"%string empty_world in
  log (run r.2 [EvUnsubscribe r.1; EvFlush]) = [].
Proof. by vm_compute. Qed.

(** A work function that schedules itself again runs once in every pass
    over the render queue. *)
Example repeating_work_runs_again :
  let r := Scheduler_schedule test_scheduler repeating (Some zero) "x"%string
             empty_world in
  log (run r.2 [EvFlush; EvFlush]) = [(0, "x"%string); (0, "x"%string)].
Proof. by vm_compute. Qed.

(** Against C1 as stated: the closure registered with the provider is
    fired twice, the first firing returns, and the second invokes the work
    again. *)
Lemma exactly_once_counterexample :
  let r := Scheduler_schedule test_scheduler spy (Some zero) "x"%string
             empty_world in
  let registered := CbExecute r.1 "x"%string in
  render_cb <$> renders r.2 = [registered] ∧
  (run_callback registered r.2).1 = None ∧
  invocations r.1
    (log (run r.2 [EvCallback registered; EvCallback registered])) = 2 ∧
  ¬ invocations r.1
      (log (run r.2 [EvCallback registered; EvCallback registered])) ≤ 1.
Proof.
  vm_compute. split; [done|]. split; [done|]. split; [done|]. lia.
Qed.

Lemma work_invoked_at_most_once_witness :
  let evs : list (@event string string) :=
    [EvTimer 0; EvFlush; EvRender; EvTimer 0; EvFlush] in
  let r := Scheduler_schedule test_scheduler spy (Some (Finite (inject_Z 50)))
             "delayedState"%string empty_world in
  fresh 0 (@empty_world string string) ∧
  no_reschedule spy ∧
  Forall (λ ev, one_shot ev = true) evs ∧
  invocations r.1 (log (run r.2 evs)) ≤ 1.
Proof.
  intros evs r.
  assert (H1 : fresh (length (actions (@empty_world string string)))
                 (@empty_world string string)) by (by split).
  assert (H2 : no_reschedule spy) by (intros s c Hc; inversion Hc).
  assert (H3 : Forall (λ ev : @event string string, one_shot ev = true) evs)
    by (repeat constructor).
  split; [exact H1|]. split; [exact H2|]. split; [exact H3|].
  exact (proj1 (work_invoked_at_most_once_when_one_shot test_scheduler spy
    (Some (Finite (inject_Z 50))) "delayedState"%string empty_world evs
    H1 H2 H3)).
Defined.

Lemma cancellation_is_absorbing_witness :
  let w := (Scheduler_schedule test_scheduler spy (Some zero)
              "canceledState"%string empty_world).2 in
  let evs : list (@event string string) :=
    [EvFlush; EvExecute 0 "canceledState"%string;
     EvCallback (CbExecute 0 "canceledState"%string);
     EvSchedule 0 "canceledState"%string None; EvFlush] in
  actions w !! 0 = Some spy_action ∧
  invocations 0 (log (run (Action_unsubscribe 0 w) evs)) =
    invocations 0 (log w).
Proof.
  intros w evs.
  assert (H : actions w !! 0 = Some spy_action) by reflexivity.
  split; [exact H|].
  exact (proj1 (proj2 (proj2 (proj2
    (cancellation_is_absorbing 0 spy_action w evs H))))).
Defined.

Lemma action_schedule_paths_witness :
  let w := world_with spy_action in
  let delayed := Finite (inject_Z 50) in
  actions w !! 0 = Some spy_action ∧ closed spy_action = false ∧
  gt0 delayed = true ∧ le0 zero ∧
  timers (Action_schedule 0 "delayedState"%string (Some delayed) w).2 =
    [{| timer_id := 0; timer_delay := delayed;
        timer_cb := CbSchedule 0 "delayedState"%string |}] ∧
  renders (Action_schedule 0 "testState"%string (Some zero) w).2 =
    [{| render_cb := CbExecute 0 "testState"%string;
        render_injector := Some test_injector |}].
Proof.
  intros w delayed.
  assert (Ha : actions w !! 0 = Some spy_action) by reflexivity.
  assert (Hc : closed spy_action = false) by reflexivity.
  assert (Hd : gt0 delayed = true) by reflexivity.
  assert (Hz : le0 zero) by (simpl; apply Qle_refl).
  split; [exact Ha|]. split; [exact Hc|]. split; [exact Hd|].
  split; [exact Hz|]. split.
  - exact (proj1 (proj1 (action_schedule_paths 0 spy_action
      "delayedState"%string delayed w Ha Hc) Hd)).
  - exact (proj1 (proj2 (action_schedule_paths 0 spy_action
      "testState"%string zero w Ha Hc) Hz)).
Defined.

Lemma execute_error_witness :
  let this := action_with failing_after_timer in
  let armed := with_timeoutId (Some 0) this in
  let w := world_with this in
  let w1 := (invoke_work 0 (work this) "x"%string w).2 in
  let r := Action_execute 0 "x"%string w in
  actions w !! 0 = Some this ∧ closed this = false ∧
  raises (work this) "x"%string = Some "Test Error"%string ∧
  actions w1 !! 0 = Some armed ∧
  length (timers_of 0 w1) = 1 ∧
  r.1 = Some "Test Error"%string ∧ is_closed 0 r.2 = true ∧
  timers_of 0 r.2 = [] ∧
  log r.2 = [(0, "x"%string)].
Proof.
  intros this armed w w1 r.
  assert (Ha : actions w !! 0 = Some this) by reflexivity.
  assert (Hc : closed this = false) by reflexivity.
  assert (Hr : raises (work this) "x"%string = Some "Test Error"%string)
    by reflexivity.
  assert (Ha1 : actions w1 !! 0 = Some armed) by reflexivity.
  assert (Htracked : ∀ t, t ∈ timers_of 0 w1 →
                          timeoutId armed = Some (timer_id t)).
  { intros t Ht. vm_compute in Ht.
    apply list_elem_of_singleton in Ht. by subst t. }
  destruct (execute_error_cancels_and_rethrows 0 this "x"%string
              "Test Error"%string w Ha Hc Hr)
    as (H1 & _ & H3 & _ & _ & H6 & H7).
  split; [exact Ha|]. split; [exact Hc|]. split; [exact Hr|].
  split; [exact Ha1|]. split; [reflexivity|].
  split; [exact H1|]. split; [exact H3|].
  split; [exact (H6 armed Ha1 Htracked)|exact H7].
Defined.

(** Against C5 as stated: the work arms two timers for its action and then
    throws.  [execute] closes the action and throws the error, but only
    the timer armed last is disarmed; the first stays armed. *)
Lemma execute_error_counterexample :
  let w := world_with (action_with failing_after_two_timers) in
  let r := Action_execute 0 "x"%string w in
  r.1 = Some "Test Error"%string ∧
  is_closed 0 r.2 = true ∧
  timers r.2 =
    [{| timer_id := 0; timer_delay := Finite (inject_Z 50);
        timer_cb := CbSchedule 0 "x"%string |}] ∧
  timers_of 0 r.2 ≠ [].
Proof.
  vm_compute. split; [done|]. split; [done|]. split; [done|]. discriminate.
Qed.


Lemma constructor_configuration_error_witness :
  let given := ArgObject (injector_object test_injector) in
  supplied_injector ArgUndefined = None ∧
  Scheduler_constructor None ArgUndefined = Throw MissingInjectionContext ∧
  supplied_injector given = Some test_injector ∧
  Scheduler_constructor None given =
    Scheduler_constructor (Some (InjectorRef 1)) given.
Proof.
  intros given.
  assert (H1 : supplied_injector ArgUndefined = None) by reflexivity.
  assert (H2 : supplied_injector given = Some test_injector) by reflexivity.
  split; [exact H1|]. split.
  - exact (proj1 constructor_configuration_error ArgUndefined H1).
  - split; [exact H2|]. symmetry.
    exact (proj2 (proj2 constructor_configuration_error
      given test_injector H2 (Some (InjectorRef 1)))).
Defined.

(** Against C7 as stated: an options object without a property [injector]
    but with a key [get], outside an injection context.  The constructor
    does not throw; it stores the object itself. *)
Lemma constructor_configuration_error_counterexample :
  opt_injector (fields options_with_get) = None ∧
  Scheduler_constructor None (ArgObject options_with_get) =
    Normal {| now := Date_now; scheduler_injector := Some (InjectorRef 7) |} ∧
  Scheduler_constructor None (ArgObject options_with_get) ≠
    Throw MissingInjectionContext.
Proof. split; [done|]. split; [done|]. discriminate. Qed.

(** Against C8 as stated: the same options object carries a clock, and an
    injection context is active.  The scheduler gets neither the supplied
    clock nor the ambient injector, but [Date.now] and the object itself. *)
Lemma constructor_resolution_counterexample :
  let result :=
    Scheduler_constructor (Some test_injector) (ArgObject options_with_get) in
  opt_now (fields options_with_get) = Some sample_clock ∧
  opt_injector (fields options_with_get) = None ∧
  result =
    Normal {| now := Date_now; scheduler_injector := Some (InjectorRef 7) |} ∧
  Date_now 0%Q ≠ sample_clock 0%Q ∧
  InjectorRef 7 ≠ test_injector.
Proof.
  split; [done|]. split; [done|]. split; [done|]. split; discriminate.
Qed.


(** * Further properties of the scheduler and its actions *)

(** ** Creating the operator *)

(** X1. [observeOnNextRender] fails when the operator is created, not when
    it is subscribed to: exactly when the argument is absent or an object
    with neither a key [get] nor a property [injector], and no injection
    context is active.  Otherwise the operator is built on a scheduler that
    carries the supplied injector, or else the ambient one.  An injector
    handed over as it is and the options literal [{ injector }] create the
    same operator, as do no argument and the empty literal. *)
Theorem observeOnNextRender_overloads (ambient : option Injector) :
  (∀ options,
     observeOnNextRender ambient options =
       match supplied_injector options, ambient with
       | Some i, _ | None, Some i =>
           Normal (observeOn {| now := spec_now options;
                                scheduler_injector := Some i |})
       | None, None => Throw MissingInjectionContext
       end) ∧
  (∀ i ref,
     observeOnNextRender ambient (ArgObject (injector_object i)) =
       observeOnNextRender ambient
         (ArgObject (options_object ref
            {| opt_injector := Some i; opt_now := None |}))) ∧
  (∀ ref,
     observeOnNextRender ambient ArgUndefined =
       observeOnNextRender ambient
         (ArgObject (options_object ref
            {| opt_injector := None; opt_now := None |}))).
Proof.
  split; [|split].
  - intros [|[ref [|] [[inj|] [clk|]]]]; by destruct ambient.
  - intros i ref. by destruct ambient.
  - intros ref. by destruct ambient.
Qed.

Section More.

Context {T E : Type}.
Implicit Types (w v : @World T E) (this : @Action T E) (wk : @Work T E).
Implicit Types (cb : @Callback T) (s : T) (a b : nat).

(** ** Delays that are not positive *)

(** X2. A delay that is not positive (zero, negative, [NaN], omitted) is
    dropped: [schedule] of the action and of the scheduler do with it what
    they do without a delay. *)
Theorem nonpositive_delay_is_no_delay d :
  gt0 d = false →
  (∀ a s w, Action_schedule a s (Some d) w = Action_schedule a s None w) ∧
  (∀ sch wk s w,
     Scheduler_schedule sch wk (Some d) s w =
       Scheduler_schedule sch wk None s w).
Proof.
  intros Hd.
  assert (Hact : ∀ a s w,
            Action_schedule a s (Some d) w = Action_schedule a s None w).
  { intros a s w. unfold Action_schedule.
    destruct (actions w !! a) as [this|]; [|done].
    destruct (closed this); [done|]. simpl. by rewrite Hd. }
  split; [done|]. intros sch wk s w.
  rewrite !Scheduler_schedule_unfold. simpl. rewrite Hact.
  unfold Action_schedule.
  destruct (_ !! _) as [this|]; [|done]. by destruct (closed this).
Qed.

(** ** From registration to invocation *)

Lemma filter_all {A} (P : A → Prop) `{!∀ x, Decision (P x)} (l : list A) :
  Forall P l → filter P l = l.
Proof.
  induction 1 as [|x l Hx _ IH]; [done|].
  by rewrite filter_cons_True, IH.
Qed.




Lemma timers_wf_find_none w :
  timers_wf w →
  list_find (λ t : @Timer T, timer_id t = next_timer w) (timers w) = None.
Proof.
  intros Hw. apply list_find_None.
  eapply Forall_impl; [exact Hw|]. simpl. lia.
Qed.

Lemma timers_wf_filter w :
  timers_wf w →
  filter (λ t : @Timer T, timer_id t ≠ next_timer w) (timers w) = timers w.
Proof.
  intros Hw. apply filter_all.
  eapply Forall_impl; [exact Hw|]. simpl. lia.
Qed.










(** X4. Cancelling a delayed task before its timer elapsed disarms that
    timer and no other: the timers, the render queue and the trace are
    those from before the task was scheduled, and the timer cannot fire
    any more. *)
Theorem cancel_disarms_own_timer sch wk delay s w :
  timers_wf w → gt0 (default zero delay) = true →
  let r := Scheduler_schedule sch wk delay s w in
  let w' := Action_unsubscribe r.1 r.2 in
  timers w' = timers w ∧
  renders w' = renders w ∧
  log w' = log w ∧
  is_closed r.1 w' = true ∧
  fire_timer (next_timer w) w' = (None, w').
Proof.
  intros Hw Hd r w'. subst w'.
  assert (Ha : r.1 = length (actions w)) by apply Scheduler_schedule_handle.
  destruct (Scheduler_schedule_cases sch wk delay s w) as [[_ Hr]|[? _]];
    [|congruence].
  fold r in Hr. rewrite Ha, Hr.
  rewrite (unsubscribe_open _
    {| closed := false; timeoutId := Some (next_timer w);
       injector := scheduler_injector sch; work := wk |});
    [|simpl; by apply list_lookup_middle|done].
  simpl. rewrite filter_app, timers_wf_filter by done.
  rewrite filter_cons_False by (simpl; by intros []).
  rewrite filter_nil, app_nil_r.
  split; [done|]. split; [done|]. split; [done|]. split.
  - unfold is_closed; simpl.
    rewrite insert_app_r_alt, Nat.sub_diag by lia. simpl.
    by rewrite list_lookup_middle.
  - unfold fire_timer; simpl. by rewrite timers_wf_find_none.
Qed.

(** ** Timer handles *)

Lemma handles_wf_empty : handles_wf (@empty_world T E).
Proof. split; [apply Forall_nil_2|]. by intros b this id. Qed.

(** The invariant survives when no timer is added and no handle changes,
    except for handles that are dropped. *)
Lemma handles_wf_shrink w w' :
  next_timer w' = next_timer w →
  (∀ t, t ∈ timers w' → t ∈ timers w) →
  (∀ b this' id, actions w' !! b = Some this' → timeoutId this' = Some id →
     ∃ this, actions w !! b = Some this ∧ timeoutId this = Some id) →
  handles_wf w → handles_wf w'.
Proof.
  intros Hn Ht Ha [Htw Hh]. split.
  - unfold timers_wf in *. rewrite Hn. apply Forall_forall. intros t Hin.
    rewrite Forall_forall in Htw. by apply Htw, Ht.
  - intros b this' id Hb Hid.
    destruct (Ha b this' id Hb Hid) as (this & Hb0 & Hid0).
    destruct (Hh b this id Hb0 Hid0) as [Hlt Hown].
    rewrite Hn. split; [done|]. intros t Hin. by apply Hown, Ht.
Qed.

Lemma schedule_handles a s delay w :
  handles_wf w → handles_wf (Action_schedule a s delay w).2.
Proof.
  intros Hw. destruct (actions w !! a) as [this|] eqn:Ha;
    [|by rewrite schedule_absent].
  destruct (closed this) eqn:Hc.
  { rewrite schedule_closed; [done|]. unfold is_closed. by rewrite Ha. }
  destruct (gt0 (default zero delay)) eqn:Hd.
  - rewrite (schedule_open_timer a this) by done.
    destruct Hw as [Htw Hh]. unfold timers_wf in Htw.
    rewrite Forall_forall in Htw. split.
    + unfold timers_wf; simpl. apply Forall_app. split.
      * apply Forall_forall. intros t Hin. specialize (Htw t Hin).
        simpl in Htw. lia.
      * apply Forall_singleton. simpl. lia.
    + simpl. intros b this' id Hb Hid.
      destruct (decide (a = b)) as [<-|Hne].
      * rewrite list_lookup_insert_eq in Hb by eauto using lookup_lt_Some.
        injection Hb as <-. simpl in Hid. injection Hid as <-.
        split; [lia|]. intros t [Hin|Hin]%elem_of_app Ht.
        -- specialize (Htw t Hin). simpl in Htw. lia.
        -- apply list_elem_of_singleton in Hin. by subst t.
      * rewrite list_lookup_insert_ne in Hb by done.
        destruct (Hh b this' id Hb Hid) as [Hlt Hown].
        split; [lia|]. intros t [Hin|Hin]%elem_of_app Ht.
        -- by apply Hown.
        -- apply list_elem_of_singleton in Hin. subst t. simpl in Ht. lia.
  - rewrite (schedule_open_render a this) by done.
    revert Hw. by apply handles_wf_shrink; simpl; eauto.
Qed.

Lemma unsubscribe_handles a w :
  handles_wf w → handles_wf (Action_unsubscribe a w).
Proof.
  destruct (unsubscribe_cases a w) as [->|(this & Ha & Hc)]; [done|].
  rewrite (unsubscribe_open a this) by done.
  apply handles_wf_shrink; simpl; [done| |].
  - intros t Ht. destruct (timeoutId this); [|done].
    by apply list_elem_of_filter in Ht as [_ ?].
  - intros b this' id Hb Hid. destruct (decide (a = b)) as [<-|Hne].
    + rewrite list_lookup_insert_eq in Hb by eauto using lookup_lt_Some.
      by injection Hb as <-.
    + rewrite list_lookup_insert_ne in Hb by done. eauto.
Qed.

Lemma this_calls_handles a cs w :
  handles_wf w → handles_wf (foldl (this_call_run a) w cs).
Proof.
  revert w. induction cs as [|c cs IH]; intros w Hw; [done|].
  simpl. apply IH.
  destruct c; simpl; [by apply schedule_handles|by apply unsubscribe_handles].
Qed.

Lemma execute_handles a s w :
  handles_wf w → handles_wf (Action_execute a s w).2.
Proof.
  intros Hw. destruct (actions w !! a) as [this|] eqn:Ha;
    [|by rewrite execute_absent].
  destruct (closed this) eqn:Hc.
  { rewrite execute_closed; [done|]. unfold is_closed. by rewrite Ha. }
  assert (Hi : handles_wf (invoke_work a (work this) s w).2).
  { unfold invoke_work; cbn [snd]. apply this_calls_handles.
    revert Hw. apply handles_wf_shrink; simpl; eauto. }
  rewrite (execute_open a this) by done.
  destruct (raises (work this) s); cbn [snd]; [|done].
  by apply unsubscribe_handles.
Qed.

Lemma run_callback_handles cb w :
  handles_wf w → handles_wf (run_callback cb w).2.
Proof.
  destruct cb as [a s|a s]; simpl;
    [apply schedule_handles|apply execute_handles].
Qed.

Lemma fire_timer_handles id w :
  handles_wf w → handles_wf (fire_timer id w).2.
Proof.
  intros Hw. unfold fire_timer.
  destruct (list_find _ _) as [[i t]|]; [|done].
  apply run_callback_handles. revert Hw.
  apply handles_wf_shrink; simpl; [done| |eauto].
  intros t' Ht'. by apply list_elem_of_filter in Ht' as [_ ?].
Qed.

Lemma fire_render_handles w :
  handles_wf w → handles_wf (fire_render w).2.
Proof.
  intros Hw. unfold fire_render.
  destruct (renders w) as [|r rest]; [done|].
  apply run_callback_handles. revert Hw.
  apply handles_wf_shrink; simpl; eauto.
Qed.

Lemma fire_renders_handles n w :
  handles_wf w → handles_wf (fire_renders n w).2.
Proof.
  revert w. induction n as [|n IH]; intros w Hw; [done|].
  rewrite fire_renders_step. by apply IH, fire_render_handles.
Qed.

Lemma Scheduler_schedule_handles sch wk delay s w :
  handles_wf w → handles_wf (Scheduler_schedule sch wk delay s w).2.
Proof.
  intros Hw. rewrite Scheduler_schedule_unfold. apply schedule_handles.
  revert Hw. apply handles_wf_shrink; simpl; [done|done|].
  intros b this' id Hb Hid.
  destruct (actions w !! b) as [this|] eqn:Hb0.
  - rewrite (lookup_app_l_Some _ _ _ _ Hb0) in Hb. injection Hb as <-. eauto.
  - apply lookup_ge_None in Hb0.
    rewrite lookup_app_r in Hb by done.
    destruct (b - length (actions w)) as [|k]; simpl in Hb; [|done].
    by injection Hb as <-.
Qed.

Lemma step_handles w ev : handles_wf w → handles_wf (step w ev).
Proof.
  destruct ev as [id| | |b|sch wk delay s|b s|b s delay|cb]; simpl.
  - apply fire_timer_handles.
  - apply fire_render_handles.
  - apply fire_renders_handles.
  - apply unsubscribe_handles.
  - apply Scheduler_schedule_handles.
  - apply execute_handles.
  - apply schedule_handles.
  - apply run_callback_handles.
Qed.

Lemma run_handles evs w : handles_wf w → handles_wf (run w evs).
Proof.
  revert w. induction evs as [|ev evs IH]; intros w Hw; [done|].
  simpl. by apply IH, step_handles.
Qed.

(** ** What one action does to the others *)

Lemma same_for_refl b w : same_for b w w.
Proof. by repeat split. Qed.

Lemma same_for_trans b w1 w2 w3 :
  same_for b w1 w2 → same_for b w2 w3 → same_for b w1 w3.
Proof.
  intros (H1 & H2 & H3 & H4) (H1' & H2' & H3' & H4').
  repeat split; congruence.
Qed.

Lemma filter_filter_keep {A} (P Q : A → Prop)
    `{!∀ x, Decision (P x)} `{!∀ x, Decision (Q x)} (l : list A) :
  (∀ x, x ∈ l → P x → Q x) → filter P (filter Q l) = filter P l.
Proof.
  induction l as [|x l IH]; intros Hl; [done|].
  rewrite !(filter_cons _ x). destruct (decide (P x)) as [HP|HP].
  - rewrite decide_True by (apply Hl; [left|done]).
    rewrite filter_cons_True by done. f_equal.
    apply IH. intros y Hy. apply Hl. by right.
  - destruct (decide (Q x)); [rewrite filter_cons_False by done|];
      apply IH; intros y Hy; apply Hl; by right.
Qed.

Lemma schedule_same a b s delay w :
  a ≠ b → same_for b w (Action_schedule a s delay w).2.
Proof.
  intros Hne. destruct (actions w !! a) as [this|] eqn:Ha;
    [|rewrite schedule_absent by done; apply same_for_refl].
  destruct (closed this) eqn:Hc.
  { rewrite schedule_closed; [apply same_for_refl|].
    unfold is_closed. by rewrite Ha. }
  destruct (gt0 (default zero delay)) eqn:Hd.
  - rewrite (schedule_open_timer a this) by done.
    repeat split; simpl; [by apply list_lookup_insert_ne|].
    unfold timers_of; simpl. rewrite filter_app.
    rewrite filter_cons_False by (simpl; congruence).
    by rewrite filter_nil, app_nil_r.
  - rewrite (schedule_open_render a this) by done.
    repeat split; simpl.
    unfold renders_of; simpl. rewrite filter_app.
    rewrite filter_cons_False by (simpl; congruence).
    by rewrite filter_nil, app_nil_r.
Qed.

Lemma unsubscribe_same a b w :
  handles_wf w → a ≠ b → same_for b w (Action_unsubscribe a w).
Proof.
  intros [_ Hh] Hne.
  destruct (unsubscribe_cases a w) as [->|(this & Ha & Hc)];
    [apply same_for_refl|].
  rewrite (unsubscribe_open a this) by done.
  repeat split; simpl; [by apply list_lookup_insert_ne|].
  unfold timers_of; simpl.
  destruct (timeoutId this) as [id|] eqn:Hid; [|done].
  apply filter_filter_keep. intros t Ht Hb Heq.
  destruct (Hh a this id Ha Hid) as [_ Hown].
  specialize (Hown t Ht Heq). congruence.
Qed.

Lemma this_calls_same a b cs w :
  handles_wf w → a ≠ b → same_for b w (foldl (this_call_run a) w cs).
Proof.
  intros Hw Hne. revert w Hw.
  induction cs as [|c cs IH]; intros w Hw; [apply same_for_refl|].
  simpl. destruct c as [s delay|]; simpl.
  - eapply same_for_trans; [by apply schedule_same|].
    by apply IH, schedule_handles.
  - eapply same_for_trans; [by apply unsubscribe_same|].
    by apply IH, unsubscribe_handles.
Qed.

Lemma execute_same a b s w :
  handles_wf w → a ≠ b → same_for b w (Action_execute a s w).2.
Proof.
  intros Hw Hne. destruct (actions w !! a) as [this|] eqn:Ha;
    [|rewrite execute_absent by done; apply same_for_refl].
  destruct (closed this) eqn:Hc.
  { rewrite execute_closed; [apply same_for_refl|].
    unfold is_closed. by rewrite Ha. }
  set (w0 := with_log (log w ++ [(a, s)]) w).
  assert (H0 : same_for b w w0).
  { repeat split; simpl. rewrite filter_app.
    rewrite filter_cons_False by (simpl; congruence).
    by rewrite filter_nil, app_nil_r. }
  assert (Hw0 : handles_wf w0).
  { revert Hw. apply handles_wf_shrink; simpl; eauto. }
  assert (Hi : same_for b w (invoke_work a (work this) s w).2).
  { unfold invoke_work; cbn [snd]. fold w0.
    eapply same_for_trans; [exact H0|]. by apply this_calls_same. }
  rewrite (execute_open a this) by done.
  destruct (raises (work this) s); cbn [snd]; [|done].
  eapply same_for_trans; [exact Hi|]. apply unsubscribe_same; [|done].
  unfold invoke_work; cbn [snd]. by apply this_calls_handles.
Qed.

Lemma run_callback_same b cb w :
  handles_wf w → cb_action cb ≠ b → same_for b w (run_callback cb w).2.
Proof.
  destruct cb as [a s|a s]; simpl; intros Hw Hne.
  - by apply schedule_same.
  - by apply execute_same.
Qed.

(** X6. Whatever is done with one action (its [schedule], [execute] or
    [unsubscribe], or a closure of it being fired; its work may throw,
    schedule again or cancel), the other actions keep their state, their
    armed timers, their render registrations and their invocations. *)
Theorem actions_are_isolated a b w ev :
  handles_wf w → subject ev = Some a → a ≠ b →
  same_for b w (step w ev).
Proof.
  intros Hw Hev Hne.
  destruct ev as [id| | |a'|sch wk delay s|a' s|a' s delay|cb];
    simpl in *; try done; injection Hev as <-.
  - by apply unsubscribe_same.
  - by apply execute_same.
  - by apply schedule_same.
  - by apply run_callback_same.
Qed.

(** ** A delayed task waits for its timer *)

Lemma timers_from_refl b w : timers_from b w w.
Proof. intros t Ht. by left. Qed.

Lemma timers_from_trans b w1 w2 w3 :
  timers_from b w1 w2 → timers_from b w2 w3 → timers_from b w1 w3.
Proof.
  intros H1 H2 t Ht. destruct (H2 t Ht) as [Ht2|?]; [|by right].
  by apply H1.
Qed.

Lemma unsubscribe_timers_sub b w t :
  t ∈ timers (Action_unsubscribe b w) → t ∈ timers w.
Proof.
  destruct (unsubscribe_cases b w) as [->|(this & Hb & Hc)]; [done|].
  rewrite (unsubscribe_open b this) by done. simpl.
  destruct (timeoutId this); [|done].
  intros Ht. by apply list_elem_of_filter in Ht as [_ ?].
Qed.

Lemma schedule_timers_from b s delay w :
  timers_from b w (Action_schedule b s delay w).2.
Proof.
  unfold Action_schedule.
  destruct (actions w !! b) as [this|]; [|apply timers_from_refl].
  destruct (closed this); [apply timers_from_refl|].
  destruct (gt0 (default zero delay)); simpl; [|intros t Ht; by left].
  intros t [Ht|Ht]%elem_of_app; [by left|right].
  apply list_elem_of_singleton in Ht. by subst t.
Qed.

Lemma this_calls_timers_from b cs w :
  timers_from b w (foldl (this_call_run b) w cs).
Proof.
  revert w. induction cs as [|c cs IH]; intros w; [apply timers_from_refl|].
  simpl. eapply timers_from_trans; [|apply IH].
  destruct c; simpl; [apply schedule_timers_from|].
  intros t Ht. left. by eapply unsubscribe_timers_sub.
Qed.

Lemma execute_timers_from b s w :
  timers_from b w (Action_execute b s w).2.
Proof.
  unfold Action_execute.
  destruct (actions w !! b) as [this|]; [|apply timers_from_refl].
  destruct (closed this); [apply timers_from_refl|].
  pose proof (this_calls_timers_from b (calls (work this) s)
                (with_log (log w ++ [(b, s)]) w)) as Hc.
  unfold invoke_work.
  destruct (raises (work this) s); cbn [snd]; [|exact Hc].
  intros t Ht. apply Hc. by eapply unsubscribe_timers_sub.
Qed.

Lemma run_callback_timers_from cb w :
  timers_from (cb_action cb) w (run_callback cb w).2.
Proof.
  destruct cb as [b s|b s]; simpl;
    [apply schedule_timers_from|apply execute_timers_from].
Qed.

Lemma length_zero_nil {A} (l l' : list A) :
  l = [] → length l' ≤ length l → l' = [].
Proof. intros -> Hl. destruct l'; [done|simpl in Hl; lia]. Qed.

Lemma waiting_carries a id w w' :
  waiting a id w →
  length (actions w) ≤ length (actions w') →
  length (renders_of a w') ≤ length (renders_of a w) →
  invocations a (log w') = invocations a (log w) →
  (∀ t, t ∈ timers_of a w' → t ∈ timers_of a w) →
  waiting a id w'.
Proof.
  intros (Ha & Hr & Hi & Ht) Hlen Hr' Hi' Ht'.
  split; [lia|]. split; [by eapply length_zero_nil|].
  split; [congruence|]. intros t Hin. by apply Ht, Ht'.
Qed.

(** What another action does is not noticed by the waiting one. *)
Lemma other_waiting a b id w w' :
  waiting a id w → a ≠ b →
  only_touches (eq b) w w' → timers_from b w w' →
  waiting a id w'.
Proof.
  intros Hw Hne Ht Htf.
  destruct (touches_inert (eq b) a w w' Ht) as (_ & Hi & _ & Hr);
    [congruence|].
  apply (waiting_carries a id w); try done.
  - apply keeps_work_length, Ht.
  - intros t [Hta Hin]%list_elem_of_filter.
    apply list_elem_of_filter. split; [done|].
    destruct (Htf t Hin); [done|congruence].
Qed.

Lemma run_callback_waiting a id cb w :
  waiting a id w → cb_action cb ≠ a → waiting a id (run_callback cb w).2.
Proof.
  intros Hw Hne. apply (other_waiting a (cb_action cb) id w);
    [done|done|apply run_callback_touches|apply run_callback_timers_from].
Qed.

Lemma unsubscribe_waiting a id b w :
  waiting a id w → waiting a id (Action_unsubscribe b w).
Proof.
  intros Hw. apply (waiting_carries a id w); [done| | | |].
  - apply keeps_work_length, (unsubscribe_touches b w).
  - unfold renders_of. by rewrite unsubscribe_renders.
  - by rewrite unsubscribe_log.
  - intros t [Hta Hin]%list_elem_of_filter.
    apply list_elem_of_filter. split; [done|].
    by eapply unsubscribe_timers_sub.
Qed.

Lemma fire_timer_waiting a id id' w :
  waiting a id w → id' ≠ id → waiting a id (fire_timer id' w).2.
Proof.
  intros Hw Hne. unfold fire_timer.
  destruct (list_find _ _) as [[i t]|] eqn:Hfind; [|done].
  apply list_find_Some in Hfind as (Hi & Hid & _).
  apply run_callback_waiting.
  - apply (waiting_carries a id w); simpl; try done.
    intros t' [Hta Hin]%list_elem_of_filter.
    apply list_elem_of_filter. split; [done|].
    by apply list_elem_of_filter in Hin as [_ ?].
  - intros Hta. destruct Hw as (_ & _ & _ & Ht). apply Hne.
    rewrite <- Hid. apply Ht, list_elem_of_filter.
    split; [done|]. by eapply list_elem_of_lookup_2.
Qed.

Lemma fire_render_waiting a id w :
  waiting a id w → waiting a id (fire_render w).2.
Proof.
  intros Hw. unfold fire_render.
  destruct (renders w) as [|r rest] eqn:Hr; [done|].
  assert (Hne : cb_action (render_cb r) ≠ a).
  { intros Hra. destruct Hw as (_ & Hnil & _).
    unfold renders_of in Hnil. rewrite Hr in Hnil.
    by rewrite filter_cons_True in Hnil. }
  apply run_callback_waiting; [|done].
  apply (waiting_carries a id w); simpl; try done.
  unfold renders_of; simpl. rewrite Hr, filter_cons_False by done. done.
Qed.

Lemma fire_renders_waiting a id n w :
  waiting a id w → waiting a id (fire_renders n w).2.
Proof.
  revert w. induction n as [|n IH]; intros w Hw; [done|].
  rewrite fire_renders_step. by apply IH, fire_render_waiting.
Qed.

Lemma Scheduler_schedule_waiting a id sch wk delay s w :
  waiting a id w → waiting a id (Scheduler_schedule sch wk delay s w).2.
Proof.
  intros Hw. rewrite Scheduler_schedule_unfold.
  apply (other_waiting a (length (actions w)) id
           (with_actions (actions w ++
              [{| closed := false; timeoutId := None;
                  injector := scheduler_injector sch; work := wk |}]) w)).
  - apply (waiting_carries a id w); simpl; try done.
    rewrite length_app. lia.
  - destruct Hw as (Ha & _). lia.
  - apply schedule_touches.
  - apply schedule_timers_from.
Qed.

Lemma step_waiting a id w ev :
  waiting a id w → one_shot ev && not_timer id ev = true →
  waiting a id (step w ev).
Proof.
  intros Hw [Hone Hnt]%andb_true_iff.
  destruct ev as [id'| | |b|sch wk delay s|b s|b s delay|cb];
    simpl in *; try done.
  - apply fire_timer_waiting; [done|].
    intros ->. by rewrite Nat.eqb_refl in Hnt.
  - by apply fire_render_waiting.
  - by apply fire_renders_waiting.
  - by apply unsubscribe_waiting.
  - by apply Scheduler_schedule_waiting.
Qed.

(** X7. A task scheduled with a positive delay is not fired before its
    timer elapses: whatever renders happen, whatever other timers elapse
    and whatever tasks are scheduled or cancelled meanwhile, its work is not
    invoked and it has no render registration. *)
Theorem delayed_work_waits_for_its_timer sch wk delay s w evs :
  fresh (length (actions w)) w →
  gt0 (default zero delay) = true →
  Forall (λ ev, one_shot ev && not_timer (next_timer w) ev = true) evs →
  let r := Scheduler_schedule sch wk delay s w in
  invocations r.1 (log (run r.2 evs)) = 0 ∧
  renders_of r.1 (run r.2 evs) = [].
Proof.
  intros [Hp Hi] Hd Hevs r.
  assert (Ha : r.1 = length (actions w)) by apply Scheduler_schedule_handle.
  assert (H0 : waiting r.1 (next_timer w) r.2).
  { rewrite Ha.
    destruct (Scheduler_schedule_cases sch wk delay s w) as [[_ Hr]|[? _]];
      [|congruence].
    fold r in Hr. rewrite Hr. unfold pending in Hp.
    split; [simpl; rewrite length_app; simpl; lia|].
    split; [unfold renders_of in *; simpl;
            destruct (filter _ (renders w)); [done|simpl in Hp; lia]|].
    split; [done|].
    unfold timers_of; simpl. rewrite filter_app. intros t [Ht|Ht]%elem_of_app.
    - unfold timers_of in Hp.
      destruct (filter _ (timers w)); [by apply elem_of_nil in Ht|].
      simpl in Hp. lia.
    - rewrite filter_cons_True in Ht by done.
      apply list_elem_of_singleton in Ht. by subst t. }
  assert (Hrun : waiting r.1 (next_timer w) (run r.2 evs)).
  { revert H0. generalize r.2. clear -Hevs.
    induction Hevs as [|ev evs Hev _ IH]; intros v Hv; [done|].
    simpl. by apply IH, step_waiting. }
  by destruct Hrun as (_ & Hr & Hi' & _).
Qed.

(** ** Work that schedules itself again *)







(** ** The order of delayed tasks *)

(** An armed timer of an open action elapses: the timer is gone and the
    action is registered for the next render, last in the queue. *)
Lemma fire_listed_timer a s this l1 t l2 v :
  timers v = l1 ++ t :: l2 →
  Forall (λ t', timer_id t' ≠ timer_id t) l1 →
  Forall (λ t', timer_id t' ≠ timer_id t) l2 →
  timer_cb t = CbSchedule a s →
  actions v !! a = Some this → closed this = false →
  fire_timer (timer_id t) v =
    (None,
     {| actions := actions v;
        timers := l1 ++ l2;
        next_timer := next_timer v;
        renders := renders v ++
          [{| render_cb := CbExecute a s; render_injector := injector this |}];
        log := log v |}).
Proof.
  intros Hv H1 H2 Hcb Ha Hc. unfold fire_timer. rewrite Hv.
  rewrite list_find_app_r.
  2:{ apply list_find_None. eapply Forall_impl; [exact H1|]. done. }
  simpl. rewrite decide_True by done. simpl. rewrite Hcb. simpl.
  rewrite (schedule_open_render a this) by done.
  unfold clearTimeout, with_renders; simpl. rewrite Hv, filter_app.
  rewrite filter_cons_False by (by intros []).
  by rewrite !filter_all.
Qed.

(** One render with two open actions registered last, one after the
    other. *)
Lemma flush_fires_last_two m a1 a2 s1 s2 i1 i2 this1 this2 old v :
  renders v = old ++
    [{| render_cb := CbExecute a1 s1; render_injector := i1 |};
     {| render_cb := CbExecute a2 s2; render_injector := i2 |}] →
  Forall (λ r, cb_action (render_cb r) < m) old →
  m ≤ a1 → m ≤ a2 → a1 ≠ a2 →
  actions v !! a1 = Some this1 → closed this1 = false →
  actions v !! a2 = Some this2 → closed this2 = false →
  ∃ earlier,
    log (flush_render v).2 = log v ++ earlier ++ [(a1, s1); (a2, s2)] ∧
    Forall (λ e, e.1 < m) earlier.
Proof.
  intros Hv Hold Hm1 Hm2 Hne Ha1 Hc1 Ha2 Hc2.
  unfold flush_render. rewrite Hv, length_app, fire_renders_add.
  pose proof (fire_renders_prefix (λ b, b < m) old _ v Hv Hold) as H1.
  revert H1. generalize (fire_renders (length old) v).2.
  intros u (Ho & _ & (l1 & Hl1 & Fl1) & (x1 & Hx1 & _) & _).
  simpl in Ho, Hl1, Hx1.
  rewrite <- (Ho a1) in Ha1 by lia. rewrite <- (Ho a2) in Ha2 by lia.
  simpl length. rewrite !fire_renders_step. simpl fire_renders. cbn [snd].
  unfold fire_render at 2. rewrite Hx1. simpl.
  match goal with |- context [Action_execute a1 s1 ?v1] => set (u1 := v1) end.
  pose proof (execute_log_open a1 this1 s1 u1 Ha1 Hc1) as Hl2.
  destruct (execute_touches a1 s1 u1) as (Ho2 & _ & _ & (x2 & Hx2 & _) & _).
  change (actions u) with (actions u1) in Ha2.
  rewrite <- (Ho2 a2) in Ha2 by done.
  revert Hl2 Hx2 Ha2. generalize (Action_execute a1 s1 u1).2.
  intros u2 Hl2 Hx2 Ha2. simpl in Hl2, Hx2.
  unfold fire_render. rewrite Hx2. simpl.
  rewrite (execute_log_open a2 this2 s2) by done. simpl.
  exists l1. split; [|done].
  rewrite Hl2, Hl1. by rewrite <- !app_assoc.
Qed.

(** X9. Delayed tasks are fired in the order in which their timers elapse,
    not in the order in which they were scheduled: when the timer of the
    task scheduled second elapses first, the next render invokes its work
    first. *)
Theorem delayed_tasks_fire_in_elapse_order
    schA schB wkA wkB dA dB sA sB w :
  wf w → timers_wf w →
  gt0 (default zero dA) = true → gt0 (default zero dB) = true →
  let rA := Scheduler_schedule schA wkA dA sA w in
  let rB := Scheduler_schedule schB wkB dB sB rA.2 in
  let evs := [EvTimer (S (next_timer w)); EvTimer (next_timer w); EvFlush] in
  ∃ earlier,
    log (run rB.2 evs) = log w ++ earlier ++ [(rB.1, sB); (rA.1, sA)] ∧
    Forall (λ e, e.1 < rA.1) earlier.
Proof.
  intros Hwf Htw HdA HdB rA rB evs.
  pose proof (wf_renders w Hwf) as Hold.
  assert (HA : rA.1 = length (actions w)) by apply Scheduler_schedule_handle.
  assert (HB : rB.1 = length (actions rA.2)) by apply Scheduler_schedule_handle.
  destruct (Scheduler_schedule_cases schA wkA dA sA w) as [[_ HwA]|[? _]];
    [|congruence].
  destruct (Scheduler_schedule_cases schB wkB dB sB rA.2) as [[_ HwB]|[? _]];
    [|congruence].
  fold rA in HwA. fold rB in HwB.
  rewrite HwA in HwB, HB. simpl in HwB, HB.
  rewrite length_app in HB, HwB. simpl in HB, HwB.
  rewrite <- HA in HB, HwB, Hold.
  replace (rA.1 + 1) with (S rA.1) in * by lia.
  unfold timers_wf in Htw.
  set (cA := {| closed := false; timeoutId := Some (next_timer w);
                injector := scheduler_injector schA; work := wkA |}).
  set (cB := {| closed := false; timeoutId := Some (S (next_timer w));
                injector := scheduler_injector schB; work := wkB |}).
  set (tA := {| timer_id := next_timer w; timer_delay := default zero dA;
                timer_cb := CbSchedule rA.1 sA |}) in *.
  set (tB := {| timer_id := S (next_timer w); timer_delay := default zero dB;
                timer_cb := CbSchedule (S rA.1) sB |}) in *.
  assert (HlA : actions rB.2 !! rA.1 = Some cA).
  { rewrite HwB; simpl. rewrite HA, lookup_app_l.
    - by rewrite list_lookup_middle.
    - rewrite length_app; simpl. lia. }
  assert (HlB : actions rB.2 !! S rA.1 = Some cB).
  { rewrite HwB; simpl. apply list_lookup_middle.
    rewrite length_app; simpl. lia. }
  (* the timer of the second task elapses *)
  subst evs. simpl.
  change (fire_timer (S (next_timer w)) rB.2)
    with (fire_timer (timer_id tB) rB.2).
  rewrite (fire_listed_timer (S rA.1) sB cB (timers w ++ [tA]) tB [] rB.2);
    [|by rewrite HwB| |done|done|done|done].
  2:{ apply Forall_app. split; [|apply Forall_singleton; simpl; lia].
      eapply Forall_impl; [exact Htw|]. simpl. lia. }
  cbn [snd]. rewrite app_nil_r.
  (* the timer of the first task elapses *)
  match goal with |- context [fire_timer (next_timer w) ?v] =>
    change (fire_timer (next_timer w) v) with (fire_timer (timer_id tA) v)
  end.
  rewrite (fire_listed_timer rA.1 sA cA (timers w) tA []);
    [|done| |done|done|done|done].
  2:{ eapply Forall_impl; [exact Htw|]. simpl. lia. }
  cbn [snd]. simpl.
  (* the render *)
  match goal with |- context [flush_render ?v] =>
    destruct (flush_fires_last_two rA.1 (S rA.1) rA.1 sB sA
                (scheduler_injector schB) (scheduler_injector schA)
                cB cA (renders w) v)
      as (earlier & Hl & Fe); simpl;
      [by rewrite HwB, <- app_assoc|done|lia|lia|lia|done|done|done|done|]
  end.
  exists earlier. split; [|done].
  rewrite Hl, HB. simpl. by rewrite HwB.
Qed.

(** ** The scheduler keeps no tasks *)

(** X10. Scheduling a task leaves the tasks scheduled before as they are:
    their objects are untouched, and the armed timers and the render queue
    are extended at the end only, so that earlier registrations keep their
    place. *)
Theorem scheduling_keeps_earlier_tasks sch wk delay s w :
  let r := Scheduler_schedule sch wk delay s w in
  (∀ b, b < length (actions w) → actions r.2 !! b = actions w !! b) ∧
  (∃ added, timers r.2 = timers w ++ added ∧
            Forall (λ t, cb_action (timer_cb t) = r.1) added) ∧
  (∃ added, renders r.2 = renders w ++ added ∧
            Forall (λ x, cb_action (render_cb x) = r.1) added) ∧
  log r.2 = log w.
Proof.
  intros r.
  assert (Ha : r.1 = length (actions w)) by apply Scheduler_schedule_handle.
  rewrite Ha.
  destruct (Scheduler_schedule_cases sch wk delay s w) as [[_ Hr]|[_ Hr]];
    fold r in Hr; rewrite Hr; simpl.
  - split; [intros b Hb; by apply lookup_app_l|].
    split; [eexists; split; [done|by apply Forall_singleton]|].
    split; [exists []; by rewrite app_nil_r|done].
  - split; [intros b Hb; by apply lookup_app_l|].
    split; [exists []; by rewrite app_nil_r|].
    split; [eexists; split; [done|by apply Forall_singleton]|done].
Qed.

End More.

(** * The further properties on sample tasks *)

Lemma nonpositive_delay_witness :
  gt0 NaN = false ∧
  Scheduler_schedule test_scheduler spy (Some NaN) "x"%string empty_world =
    Scheduler_schedule test_scheduler spy None "x"%string empty_world.
Proof.
  assert (Hd : gt0 NaN = false) by reflexivity.
  split; [exact Hd|].
  exact (proj2 (@nonpositive_delay_is_no_delay string string NaN Hd)
           test_scheduler spy "x"%string empty_world).
Defined.


Lemma cancel_disarms_witness :
  let delay := Some (Finite (inject_Z 50)) in
  let r := Scheduler_schedule test_scheduler spy delay "delayedState"%string
             empty_world in
  timers_wf (@empty_world string string) ∧
  gt0 (default zero delay) = true ∧
  timers (Action_unsubscribe r.1 r.2) = [] ∧
  fire_timer 0 (Action_unsubscribe r.1 r.2) =
    (None, Action_unsubscribe r.1 r.2).
Proof.
  intros delay r.
  assert (Htw : timers_wf (@empty_world string string))
    by apply Forall_nil_2.
  assert (Hd : gt0 (default zero delay) = true) by reflexivity.
  destruct (cancel_disarms_own_timer test_scheduler spy delay
              "delayedState"%string empty_world Htw Hd)
    as (H1 & _ & _ & _ & H5).
  split; [exact Htw|]. split; [exact Hd|]. split; [exact H1|exact H5].
Defined.

Lemma actions_are_isolated_witness :
  let w : @World string string :=
    run empty_world
      [EvNewTask test_scheduler spy (Some (Finite (inject_Z 50)))
         "delayedState"%string;
       EvNewTask test_scheduler failing None "x"%string] in
  let ev : @event string string := EvCallback (CbExecute 1 "x"%string) in
  handles_wf w ∧ subject ev = Some 1 ∧ 1 ≠ 0 ∧
  (run_callback (CbExecute 1 "x"%string) w).1 = Some "Test Error"%string ∧
  same_for 0 w (step w ev).
Proof.
  intros w ev.
  assert (Hw : handles_wf w) by apply run_handles, handles_wf_empty.
  assert (Hs : subject ev = Some 1) by reflexivity.
  assert (Hne : 1 ≠ 0) by lia.
  split; [exact Hw|]. split; [exact Hs|]. split; [exact Hne|].
  split; [reflexivity|].
  exact (actions_are_isolated 1 0 w ev Hw Hs Hne).
Defined.

Lemma delayed_work_waits_witness :
  let delay := Some (Finite (inject_Z 50)) in
  let evs : list (@event string string) :=
    [EvFlush; EvRender; EvNewTask test_scheduler spy None "other"%string;
     EvTimer 1; EvFlush; EvUnsubscribe 1] in
  let r := Scheduler_schedule test_scheduler spy delay "delayedState"%string
             empty_world in
  fresh 0 (@empty_world string string) ∧
  gt0 (default zero delay) = true ∧
  Forall (λ ev, one_shot ev && not_timer 0 ev = true) evs ∧
  invocations r.1 (log (run r.2 evs)) = 0.
Proof.
  intros delay evs r.
  assert (H1 : fresh (length (actions (@empty_world string string)))
                 (@empty_world string string)) by (by split).
  assert (H2 : gt0 (default zero delay) = true) by reflexivity.
  assert (H3 : Forall (λ ev : @event string string,
                  one_shot ev &&
                    not_timer (next_timer (@empty_world string string)) ev
                  = true) evs) by (repeat constructor).
  split; [exact H1|]. split; [exact H2|]. split; [exact H3|].
  exact (proj1 (delayed_work_waits_for_its_timer test_scheduler spy delay
                  "delayedState"%string empty_world evs H1 H2 H3)).
Defined.


Lemma elapse_order_witness :
  let dA := Some (Finite (inject_Z 200)) in
  let dB := Some (Finite (inject_Z 100)) in
  let rA := Scheduler_schedule test_scheduler spy dA "state1"%string
              empty_world in
  let rB := Scheduler_schedule test_scheduler spy dB "state2"%string rA.2 in
  wf (@empty_world string string) ∧
  timers_wf (@empty_world string string) ∧
  gt0 (default zero dA) = true ∧ gt0 (default zero dB) = true ∧
  ∃ earlier,
    log (run rB.2 [EvTimer 1; EvTimer 0; EvFlush]) =
      log (@empty_world string string) ++ earlier ++
        [(rB.1, "state2"%string); (rA.1, "state1"%string)] ∧
    Forall (λ e, e.1 < rA.1) earlier.
Proof.
  intros dA dB rA rB.
  assert (Hwf : wf (@empty_world string string)) by (intros a _; by split).
  assert (Htw : timers_wf (@empty_world string string))
    by apply Forall_nil_2.
  assert (HdA : gt0 (default zero dA) = true) by reflexivity.
  assert (HdB : gt0 (default zero dB) = true) by reflexivity.
  split; [exact Hwf|]. split; [exact Htw|].
  split; [exact HdA|]. split; [exact HdB|].
  exact (delayed_tasks_fire_in_elapse_order test_scheduler test_scheduler
           spy spy dA dB "state1"%string "state2"%string empty_world
           Hwf Htw HdA HdB).
Defined.

Lemma scheduling_keeps_witness :
  let w := (Scheduler_schedule test_scheduler spy None "first"%string
              empty_world).2 in
  let r := Scheduler_schedule test_scheduler failing None "second"%string w in
  0 < length (actions w) ∧ actions r.2 !! 0 = actions w !! 0.
Proof.
  intros w r.
  assert (H0 : 0 < length (actions w)) by (simpl; lia).
  split; [exact H0|].
  exact (proj1 (scheduling_keeps_earlier_tasks test_scheduler failing None
                  "second"%string w) 0 H0).
Defined.
